(** * A verified model of the chess AI player (ai_player.js)

    The development embeds the three parts of [ai_player.js]: the
    material evaluator ([getPieceValue], [evaluateBoard]), the recursive
    [minimax] search and the top-level [chooseMove].

    The rules engine ([GameGlobal.Game]) lives outside that file.  Its
    methods are taken as the fields of a record [RulesEngine]; nothing is
    assumed about them beyond their types.  Queries ([getMoves],
    [findPieceByPosition], [export], ...) are functions of the state of
    the object they are called on; commands ([moveSelected],
    [takeWithSelected], ...) are transformers of that state; the
    constructor yields an object that shares no state with another.

    Two embeddings are given and related:
    - functions on game _values_ ([simulate], [minimax_fuel], [minimax],
      [chooseMove]), where an object is represented by its current state;
    - functions on a store of game objects (suffix [_h]), where every
      assignment and command names the reference it writes through and
      [new GameGlobal.Game(g.export())] allocates a fresh object.
    [chooseMove_leaves_original_unchanged] shows that the second computes
    what the first computes and writes to fresh objects only.

    [Math.random] is a sequence of draws, consumed in call order; the
    product of a draw and an array length is the binary64 product. *)

From Stdlib Require Import ZArith QArith Qround Qpower List String Bool Lia Lqa.
From stdpp Require Import base list.
Import ListNotations.

Local Open Scope Z_scope.

(** ** Colours

    The source represents the two sides by the strings ["white"] and
    ["black"], compared with [===]; these are the only colour literals. *)

Inductive Color : Type := white | black.

Definition Color_eqb (a b : Color) : bool :=
  match a, b with
  | white, white | black, black => true
  | _, _ => false
  end.

(** [aiPlayerColor === "white" ? "black" : "white"] *)
Definition opponentOf (c : Color) : Color :=
  if Color_eqb c white then black else white.

(** [isMaximizingPlayer ? aiPlayerColor : (aiPlayerColor === "white" ? "black" : "white")]:
    the side whose moves a node of the search enumerates. *)
Definition sideToMove (isMaximizingPlayer : bool) (aiPlayerColor : Color) : Color :=
  if isMaximizingPlayer then aiPlayerColor else opponentOf aiPlayerColor.

(** ** JavaScript numbers used as scores

    Scores are [Infinity], [-Infinity], or sums and differences of the
    integer piece values, which doubles represent exactly (below 2^53). *)

Inductive Number : Type :=
| NegInfinity
| Finite (z : Z)
| Infinity.

(** [Math.max(a, b)] *)
Definition Math_max (a b : Number) : Number :=
  match a, b with
  | Infinity, _ | _, Infinity => Infinity
  | NegInfinity, x | x, NegInfinity => x
  | Finite x, Finite y => Finite (Z.max x y)
  end.

(** [Math.min(a, b)] *)
Definition Math_min (a b : Number) : Number :=
  match a, b with
  | NegInfinity, _ | _, NegInfinity => NegInfinity
  | Infinity, x | x, Infinity => x
  | Finite x, Finite y => Finite (Z.min x y)
  end.

(** [a > b] *)
Definition Number_gtb (a b : Number) : bool :=
  match a, b with
  | NegInfinity, _ => false
  | _, Infinity => false
  | Infinity, _ => true
  | Finite _, NegInfinity => true
  | Finite x, Finite y => y <? x
  end.

(** [a === b] *)
Definition Number_eqb (a b : Number) : bool :=
  match a, b with
  | NegInfinity, NegInfinity | Infinity, Infinity => true
  | Finite x, Finite y => x =? y
  | _, _ => false
  end.

(** [a <= b] as a proposition, used to state that a fold computes an
    extremum. *)
Definition Number_le (a b : Number) : Prop :=
  Number_gtb a b = false.

(** [-a] *)
Definition Number_opp (a : Number) : Number :=
  match a with
  | NegInfinity => Infinity
  | Finite z => Finite (- z)
  | Infinity => NegInfinity
  end.

(** ** Piece values *)

(** [GameGlobal.AIEngine.getPieceValue]: a [switch] over the piece type. *)
Definition getPieceValue (pieceType : string) : Z :=
  if String.eqb pieceType "pawn" then 100
  else if String.eqb pieceType "knight" then 320
  else if String.eqb pieceType "bishop" then 330
  else if String.eqb pieceType "rook" then 500
  else if String.eqb pieceType "queen" then 900
  else if String.eqb pieceType "king" then 20000
  else 0.

(** ** The search depth, random draws, arrays and results *)

Definition SEARCH_DEPTH : Z := 2.

(** The double written [0.3] in the source, as an exact rational. *)
Definition tieBreakProbability : Q :=
  5404319552844595 # 18014398509481984.

(** [Math.random() < 0.3] for a draw [r]. *)
Definition replaceOnTie (r : Q) : bool :=
  match Qcompare r tieBreakProbability with
  | Lt => true
  | _ => false
  end.

(** The tie-break of every draw of [random] is [b]: the stub always
    replaces ([b = true]) or never replaces ([b = false]). *)
Definition TieBreakStubbed (b : bool) (random : nat -> Q) : Prop :=
  forall i, replaceOnTie (random i) = b.

(** *** Products of doubles

    [Math.random() * len] is an IEEE 754 binary64 product: the exact
    product rounded to the nearest double, ties to the even significand.
    Doubles are represented by their exact rational value. *)

(** For [x > 0], the exponent [e] with [2^e <= x < 2^(e+1)]. *)
Definition binade (x : Q) : Z :=
  let e := Z.log2 (Qnum x) - Z.log2 (Zpos (Qden x)) in
  if Qle_bool (2 ^ e) x then e else e - 1.

(** The nearest integer, ties to the even one. *)
Definition roundHalfEven (q : Q) : Z :=
  let f := Qfloor q in
  match Qcompare (q - inject_Z f) (1 # 2) with
  | Lt => f
  | Gt => f + 1
  | Eq => if Z.even f then f else f + 1
  end.

(** The distance between the doubles around [x > 0]: a significand of
    53 bits, and exponents from -1022 (below, the subnormal spacing
    2^-1074). *)
Definition ulp (x : Q) : Q :=
  (2 ^ (Z.max (binade x) (-1022) - 52))%Q.

(** The double nearest to [x]; overflow does not arise for the products
    of a draw and an array length. *)
Definition roundToDouble (x : Q) : Q :=
  match Qcompare x 0 with
  | Eq => 0
  | Gt => inject_Z (roundHalfEven (x / ulp x)) * ulp x
  | Lt => - (inject_Z (roundHalfEven (- x / ulp (- x))) * ulp (- x))
  end.

(** The greatest double below 1, 1 - 2^-53: [Math.random] returns a
    double in [0, 1), so no draw exceeds it. *)
Definition greatestDraw : Q := 9007199254740991 # 9007199254740992.

(** [Math.floor(Math.random() * len)] for a draw [r]: the floor of the
    rounded product.  A value of [r] above [greatestDraw], which
    [Math.random] cannot return, is read as [greatestDraw]. *)
Definition randomIndex (r : Q) (len : nat) : Z :=
  let draw := if Qle_bool r greatestDraw then r else greatestDraw in
  Qfloor (roundToDouble (draw * inject_Z (Z.of_nat len))).

(** [arr[k]]: [None] is [undefined]. *)
Definition arrayGet {A : Type} (arr : list A) (k : Z) : option A :=
  if k <? 0 then None else nth_error arr (Z.to_nat k).

(** What a call does: it returns a value ([None] is [null]) or throws (a
    [TypeError] on a property read from [undefined]). *)
Inductive Outcome (A : Type) : Type :=
| Returned (result : option A)
| Thrown.

Arguments Returned {A} result.
Arguments Thrown {A}.

(** A reference to a game object: an index into the store. *)
Abbreviation Ref := nat (only parsing).

(** ** Pieces, moves, game objects and the rules engine *)

Section Engine.

(** Board coordinates and the engine's private fields are opaque to the
    AI code. *)
Context {Square Hidden : Type}.

Record Piece : Type := mkPiece {
  type : string;
  color : Color;
  position : Square
}.

(** The objects pushed on [legalMoves] / [possibleAIMoves]. *)
Record Move : Type := mkMove {
  piece : Piece;
  from : Square;
  to : Square
}.

(** The fields of a [GameGlobal.Game] instance that [ai_player.js] reads
    or assigns, and the rest of the instance. *)
Record Game : Type := mkGame {
  pieces : list Piece;
  currentPlayer : Color;
  winner : option Color;
  currentPiece : option Piece;
  possibleMoves : list Square;
  pawnThatReachedEnd : option Piece;
  hidden : Hidden
}.

Definition set_currentPiece (g : Game) (p : option Piece) : Game :=
  mkGame (pieces g) (currentPlayer g) (winner g) p
         (possibleMoves g) (pawnThatReachedEnd g) (hidden g).

Definition set_possibleMoves (g : Game) (ms : list Square) : Game :=
  mkGame (pieces g) (currentPlayer g) (winner g) (currentPiece g)
         ms (pawnThatReachedEnd g) (hidden g).

Definition set_pawnThatReachedEnd (g : Game) (p : option Piece) : Game :=
  mkGame (pieces g) (currentPlayer g) (winner g) (currentPiece g)
         (possibleMoves g) p (hidden g).

Definition set_currentPlayer (g : Game) (c : Color) : Game :=
  mkGame (pieces g) c (winner g) (currentPiece g)
         (possibleMoves g) (pawnThatReachedEnd g) (hidden g).

(** The result object of [checkPawnPromotion]. *)
Record PromotionDetails : Type := mkPromotionDetails {
  needsPromotion : bool;
  pawn : option Piece
}.

(** The methods of [GameGlobal.Game] called by the AI code, as a
    parameter of the development.  [export] followed by [newGame] is the
    cloning idiom [new GameGlobal.Game(g.export())].  The methods that
    the AI code calls for their result take the state of the object and
    return the result; those it calls for their effect return the new
    state of the object. *)
Record RulesEngine : Type := mkRulesEngine {
  BoardMap : Type;
  Exported : Type;
  isFinished : Game -> bool;
  generateCurrentMap : Game -> BoardMap;
  getMoves : Game -> Piece -> BoardMap -> list Square;
  isCheck : Game -> Color -> bool;
  export : Game -> Exported;
  newGame : Exported -> Game;
  findPieceByPosition : Game -> Square -> option Piece;
  canTakeWithSelected : Game -> Piece -> bool;
  takeWithSelected : Game -> Piece -> Game;
  canMoveSelected : Game -> Square -> bool;
  moveSelected : Game -> Square -> Game;
  checkPawnPromotion : Game -> option Piece -> PromotionDetails;
  finalizePawnPromotion : Game -> string -> Game;
  toggleCurrentPlayer : Game -> Game
}.

(** *** Evaluation *)

(** [GameGlobal.AIEngine.evaluateBoard]: one pass over [pieces] with a
    running [score]. *)
Definition evaluateBoard (gameInstance : Game) (playerColor : Color) : Z :=
  fold_left
    (fun score piece =>
       let pieceValue := getPieceValue (type piece) in
       if Color_eqb (color piece) playerColor
       then score + pieceValue
       else score - pieceValue)
    (pieces gameInstance) 0.

(** The material of one side: the sum of the values of its pieces. *)
Definition material (ps : list Piece) (c : Color) : Z :=
  fold_right Z.add 0
    (List.map (fun p => getPieceValue (type p))
              (List.filter (fun p => Color_eqb (color p) c) ps)).

(** *** Search *)

Variable E : RulesEngine.

(** The enumeration that opens both [minimax] and [chooseMove]: the pieces
    of [playerColor] in array order, and for each of them one move per
    square returned by [getMoves]. *)
Definition enumerateMoves (g : Game) (playerColor : Color) : list Move :=
  let piecesForThisTurn :=
    List.filter (fun p => Color_eqb (color p) playerColor) (pieces g) in
  List.flat_map
    (fun piece =>
       let moves := getMoves E g piece (generateCurrentMap E g) in
       List.map (fun targetSquare => mkMove piece (position piece) targetSquare)
                moves)
    piecesForThisTurn.

(** The pawn promotion step shared by all three simulation loops. *)
Definition promoteToQueen (sim : Game) : Game :=
  let promoDetails := checkPawnPromotion E sim (currentPiece sim) in
  if needsPromotion promoDetails
  then finalizePawnPromotion E
         (set_pawnThatReachedEnd sim (pawn promoDetails)) "queen"
  else sim.

(** The body of the [for] loops of [minimax] up to the recursive call:
    the child position reached by [move], or [None] where the source
    executes [continue]. *)
Definition simulate (gameInstanceSim : Game) (playerForThisTurn : Color)
           (move : Move) : option Game :=
  let childGameSim := newGame E (export E gameInstanceSim) in
  match findPieceByPosition E childGameSim (from move) with
  | None => None
  | Some pieceToMoveInSim =>
      let childGameSim := set_currentPiece childGameSim (Some pieceToMoveInSim) in
      let childGameSim :=
        set_possibleMoves childGameSim
          (getMoves E childGameSim pieceToMoveInSim
                    (generateCurrentMap E childGameSim)) in
      let moved :=
        match findPieceByPosition E childGameSim (to move) with
        | Some pieceAtTargetInSim =>
            if negb (Color_eqb (color pieceAtTargetInSim) (color pieceToMoveInSim))
            then Some (takeWithSelected E childGameSim pieceAtTargetInSim)
            else None
        | None => Some (moveSelected E childGameSim (to move))
        end in
      match moved with
      | None => None
      | Some childGameSim =>
          let childGameSim := promoteToQueen childGameSim in
          let childGameSim := set_currentPlayer childGameSim playerForThisTurn in
          Some (toggleCurrentPlayer E childGameSim)
      end
  end.

(** One [for] loop of [minimax].  [combine] is [Math.max] or [Math.min],
    [acc] is [maxEval] or [minEval], and [recur] is the recursive call
    on a child.  [None] means that a recursive call did not return. *)
Fixpoint searchLoop (recur : Game -> option Number)
         (combine : Number -> Number -> Number)
         (g : Game) (playerForThisTurn : Color)
         (legalMoves : list Move) (acc : Number) : option Number :=
  match legalMoves with
  | [] => Some acc
  | move :: rest =>
      match simulate g playerForThisTurn move with
      | None => searchLoop recur combine g playerForThisTurn rest acc
      | Some childGameSim =>
          match recur childGameSim with
          | None => None
          | Some evalScore =>
              searchLoop recur combine g playerForThisTurn rest
                         (combine acc evalScore)
          end
      end
  end.

(** The body of [minimax], with the recursive calls made through
    [recur]. *)
Definition minimax_body
           (recur : Game -> Z -> bool -> Color -> option Number)
           (gameInstanceSim : Game) (depth : Z)
           (isMaximizingPlayer : bool) (aiPlayerColor : Color)
  : option Number :=
  if (depth =? 0) || isFinished E gameInstanceSim then
    match winner gameInstanceSim with
    | Some w =>
        if Color_eqb w aiPlayerColor then Some Infinity else Some NegInfinity
    | None => Some (Finite (evaluateBoard gameInstanceSim aiPlayerColor))
    end
  else
    let playerForThisTurn := sideToMove isMaximizingPlayer aiPlayerColor in
    let legalMoves := enumerateMoves gameInstanceSim playerForThisTurn in
    match legalMoves with
    | [] =>
        if isCheck E gameInstanceSim playerForThisTurn
        then Some (if isMaximizingPlayer then NegInfinity else Infinity)
        else Some (Finite 0)
    | _ :: _ =>
        if isMaximizingPlayer then
          searchLoop (fun child => recur child (depth - 1) false aiPlayerColor)
                     Math_max gameInstanceSim playerForThisTurn
                     legalMoves NegInfinity
        else
          searchLoop (fun child => recur child (depth - 1) true aiPlayerColor)
                     Math_min gameInstanceSim playerForThisTurn
                     legalMoves Infinity
    end.

(** [minimax], with a bound on the nesting of recursive calls; [None]
    when the bound is reached. *)
Fixpoint minimax_fuel (fuel : nat) (gameInstanceSim : Game) (depth : Z)
         (isMaximizingPlayer : bool) (aiPlayerColor : Color)
  : option Number :=
  match fuel with
  | O => None
  | S fuel' =>
      minimax_body (minimax_fuel fuel') gameInstanceSim depth
                   isMaximizingPlayer aiPlayerColor
  end.

(** [minimax] as a function, for the depths on which it returns (see
    [minimax_fuel_minimax]). *)
Definition minimax (gameInstanceSim : Game) (depth : Z)
           (isMaximizingPlayer : bool) (aiPlayerColor : Color) : Number :=
  match minimax_fuel (S (Z.to_nat depth)) gameInstanceSim depth
                     isMaximizingPlayer aiPlayerColor with
  | Some v => v
  | None => Finite 0
  end.

(** The children of a node: the results of the simulations that did not
    fault, in move order. *)
Definition children (g : Game) (playerForThisTurn : Color)
           (legalMoves : list Move) : list Game :=
  omap (simulate g playerForThisTurn) legalMoves.

(** *** Move selection *)

(** The body of the [for] loop of [chooseMove] up to the call of
    [minimax]; it differs from [simulate] by the [canTakeWithSelected] /
    [canMoveSelected] guards. *)
Definition simulateRoot (gameInstance : Game) (aiColor : Color)
           (move : Move) : option Game :=
  let gameSim := newGame E (export E gameInstance) in
  match findPieceByPosition E gameSim (from move) with
  | None => None
  | Some pieceToMoveInSim =>
      let gameSim := set_currentPiece gameSim (Some pieceToMoveInSim) in
      let gameSim :=
        set_possibleMoves gameSim
          (getMoves E gameSim pieceToMoveInSim (generateCurrentMap E gameSim)) in
      let moved :=
        match findPieceByPosition E gameSim (to move) with
        | Some pieceAtTargetInSim =>
            if negb (Color_eqb (color pieceAtTargetInSim) (color pieceToMoveInSim))
            then
              if canTakeWithSelected E gameSim pieceAtTargetInSim
              then Some (takeWithSelected E gameSim pieceAtTargetInSim)
              else None
            else None
        | None =>
            if canMoveSelected E gameSim (to move)
            then Some (moveSelected E gameSim (to move))
            else None
        end in
      match moved with
      | None => None
      | Some gameSim =>
          let gameSim := promoteToQueen gameSim in
          let gameSim := set_currentPlayer gameSim aiColor in
          Some (toggleCurrentPlayer E gameSim)
      end
  end.

(** The variables of [chooseMove] that the loop updates, and the number
    of calls of [Math.random] made so far. *)
Record Selection : Type := mkSelection {
  bestMove : option Move;
  bestScore : Number;
  drawn : nat
}.

(** The [for] loop of [chooseMove]; [random n] is the value of the
    [n]-th call of [Math.random]. *)
Fixpoint rootLoop (random : nat -> Q) (gameInstance : Game) (aiColor : Color)
         (possibleAIMoves : list Move) (sel : Selection) : Selection :=
  match possibleAIMoves with
  | [] => sel
  | move :: rest =>
      match simulateRoot gameInstance aiColor move with
      | None => rootLoop random gameInstance aiColor rest sel
      | Some gameSim =>
          let currentMoveScore :=
            minimax gameSim (SEARCH_DEPTH - 1) false aiColor in
          if Number_gtb currentMoveScore (bestScore sel) then
            rootLoop random gameInstance aiColor rest
                     (mkSelection (Some move) currentMoveScore (drawn sel))
          else if Number_eqb currentMoveScore (bestScore sel) then
            if replaceOnTie (random (drawn sel)) then
              rootLoop random gameInstance aiColor rest
                       (mkSelection (Some move) (bestScore sel) (S (drawn sel)))
            else
              rootLoop random gameInstance aiColor rest
                       (mkSelection (bestMove sel) (bestScore sel) (S (drawn sel)))
          else rootLoop random gameInstance aiColor rest sel
      end
  end.

(** [bestMove] when the loop is left. *)
Definition searchRootMoves (random : nat -> Q) (gameInstance : Game)
  : Selection :=
  rootLoop random gameInstance (currentPlayer gameInstance)
           (enumerateMoves gameInstance (currentPlayer gameInstance))
           (mkSelection None NegInfinity 0).

(** [bestMove] after the statement
    [if (!bestMove && possibleAIMoves.length > 0)], for a non-empty
    [possibleAIMoves], with the number of draws made. *)
Definition determineBestMove (random : nat -> Q) (gameInstance : Game)
  : option Move * nat :=
  let possibleAIMoves :=
    enumerateMoves gameInstance (currentPlayer gameInstance) in
  let sel := searchRootMoves random gameInstance in
  match bestMove sel with
  | Some m => (Some m, drawn sel)
  | None =>
      (arrayGet possibleAIMoves
         (randomIndex (random (drawn sel)) (length possibleAIMoves)),
       S (drawn sel))
  end.

(** [GameGlobal.AIEngine.chooseMove].  A result found by the loop or by
    the first random pick is resolved against [gameInstance]; when that
    fails, control falls to the second random pick (lines 291-296), whose
    [console.log] reads [randomFallbackMove.piece] and throws if the
    index is outside the array. *)
Definition chooseMove (gameInstance : Game) (random : nat -> Q)
  : Outcome Move :=
  let possibleAIMoves :=
    enumerateMoves gameInstance (currentPlayer gameInstance) in
  match possibleAIMoves with
  | [] => Returned None
  | _ :: _ =>
      let '(best, n) := determineBestMove random gameInstance in
      let finalMoveObject :=
        match best with
        | Some bm =>
            match findPieceByPosition E gameInstance (from bm) with
            | Some originalPieceForBestMove =>
                Some (mkMove originalPieceForBestMove (from bm) (to bm))
            | None => None
            end
        | None => None
        end in
      match finalMoveObject with
      | Some m => Returned (Some m)
      | None =>
          match arrayGet possibleAIMoves
                  (randomIndex (random n) (length possibleAIMoves)) with
          | Some randomFallbackMove => Returned (Some randomFallbackMove)
          | None => Thrown
          end
      end
  end.

(** *** The same code over a store of game objects

    The store, a list of games, holds the state of every
    [GameGlobal.Game] instance alive; a reference is an index into it.
    A computation takes the store and returns a result with the new
    store, or [None] when it reads a reference that is not allocated or
    a recursive call does not return. *)

Definition Heap (A : Type) : Type := list Game -> option (A * list Game).

Definition ret {A : Type} (a : A) : Heap A :=
  fun s => Some (a, s).

Definition bind {A B : Type} (c : Heap A) (k : A -> Heap B) : Heap B :=
  fun s =>
    match c s with
    | Some (a, s') => k a s'
    | None => None
    end.

(** A method or field read on the object at [r]. *)
Definition query {A : Type} (r : Ref) (f : Game -> A) : Heap A :=
  fun s =>
    match s !! r with
    | Some g => Some (f g, s)
    | None => None
    end.

(** A mutating method or a field assignment on the object at [r]. *)
Definition command (r : Ref) (f : Game -> Game) : Heap unit :=
  fun s =>
    match s !! r with
    | Some g => Some (tt, <[r := f g]> s)
    | None => None
    end.

(** [new GameGlobal.Game(data)]: a fresh object. *)
Definition construct (data : Exported E) : Heap Ref :=
  fun s => Some (length s, s ++ [newGame E data]).

Notation "x <- c ;; k" := (bind c (fun x => k))
  (at level 100, c at next level, right associativity).
Notation "c ;;; k" := (bind c (fun _ => k))
  (at level 100, right associativity).

Definition promoteToQueen_h (sim : Ref) : Heap unit :=
  cp <- query sim currentPiece ;;
  promoDetails <- query sim (fun g => checkPawnPromotion E g cp) ;;
  if needsPromotion promoDetails then
    command sim (fun g => set_pawnThatReachedEnd g (pawn promoDetails)) ;;;
    command sim (fun g => finalizePawnPromotion E g "queen")
  else ret tt.

(** Lines 102-130 and 141-167: the reference of the child, or [None]
    after [continue]. *)
Definition simulate_h (gameInstanceSim : Ref) (playerForThisTurn : Color)
           (move : Move) : Heap (option Ref) :=
  data <- query gameInstanceSim (export E) ;;
  childGameSim <- construct data ;;
  found <- query childGameSim (fun g => findPieceByPosition E g (from move)) ;;
  match found with
  | None => ret None
  | Some pieceToMoveInSim =>
      command childGameSim (fun g => set_currentPiece g (Some pieceToMoveInSim)) ;;;
      moves <- query childGameSim
                 (fun g => getMoves E g pieceToMoveInSim (generateCurrentMap E g)) ;;
      command childGameSim (fun g => set_possibleMoves g moves) ;;;
      target <- query childGameSim (fun g => findPieceByPosition E g (to move)) ;;
      moved <-
        match target with
        | Some pieceAtTargetInSim =>
            if negb (Color_eqb (color pieceAtTargetInSim) (color pieceToMoveInSim))
            then
              command childGameSim
                      (fun g => takeWithSelected E g pieceAtTargetInSim) ;;;
              ret true
            else ret false
        | None =>
            command childGameSim (fun g => moveSelected E g (to move)) ;;;
            ret true
        end ;;
      if (moved : bool) then
        promoteToQueen_h childGameSim ;;;
        command childGameSim (fun g => set_currentPlayer g playerForThisTurn) ;;;
        command childGameSim (toggleCurrentPlayer E) ;;;
        ret (Some childGameSim)
      else ret None
  end.

Fixpoint searchLoop_h (recur : Ref -> Heap Number)
         (combine : Number -> Number -> Number)
         (g : Ref) (playerForThisTurn : Color)
         (legalMoves : list Move) (acc : Number) : Heap Number :=
  match legalMoves with
  | [] => ret acc
  | move :: rest =>
      child <- simulate_h g playerForThisTurn move ;;
      match child with
      | None => searchLoop_h recur combine g playerForThisTurn rest acc
      | Some childGameSim =>
          evalScore <- recur childGameSim ;;
          searchLoop_h recur combine g playerForThisTurn rest
                       (combine acc evalScore)
      end
  end.

Fixpoint minimax_h (fuel : nat) (gameInstanceSim : Ref) (depth : Z)
         (isMaximizingPlayer : bool) (aiPlayerColor : Color) : Heap Number :=
  match fuel with
  | O => fun _ => None
  | S fuel' =>
      finished <- query gameInstanceSim (isFinished E) ;;
      if (depth =? 0) || finished then
        w <- query gameInstanceSim winner ;;
        match w with
        | Some w =>
            if Color_eqb w aiPlayerColor then ret Infinity else ret NegInfinity
        | None =>
            query gameInstanceSim
                  (fun g => Finite (evaluateBoard g aiPlayerColor))
        end
      else
        let playerForThisTurn := sideToMove isMaximizingPlayer aiPlayerColor in
        legalMoves <- query gameInstanceSim
                        (fun g => enumerateMoves g playerForThisTurn) ;;
        match legalMoves with
        | [] =>
            inCheck <- query gameInstanceSim
                         (fun g => isCheck E g playerForThisTurn) ;;
            if (inCheck : bool)
            then ret (if isMaximizingPlayer then NegInfinity else Infinity)
            else ret (Finite 0)
        | _ :: _ =>
            if isMaximizingPlayer then
              searchLoop_h
                (fun child => minimax_h fuel' child (depth - 1) false aiPlayerColor)
                Math_max gameInstanceSim playerForThisTurn legalMoves NegInfinity
            else
              searchLoop_h
                (fun child => minimax_h fuel' child (depth - 1) true aiPlayerColor)
                Math_min gameInstanceSim playerForThisTurn legalMoves Infinity
        end
  end.

(** Lines 209-252. *)
Definition simulateRoot_h (gameInstance : Ref) (aiColor : Color)
           (move : Move) : Heap (option Ref) :=
  data <- query gameInstance (export E) ;;
  gameSim <- construct data ;;
  found <- query gameSim (fun g => findPieceByPosition E g (from move)) ;;
  match found with
  | None => ret None
  | Some pieceToMoveInSim =>
      command gameSim (fun g => set_currentPiece g (Some pieceToMoveInSim)) ;;;
      moves <- query gameSim
                 (fun g => getMoves E g pieceToMoveInSim (generateCurrentMap E g)) ;;
      command gameSim (fun g => set_possibleMoves g moves) ;;;
      target <- query gameSim (fun g => findPieceByPosition E g (to move)) ;;
      moved <-
        match target with
        | Some pieceAtTargetInSim =>
            if negb (Color_eqb (color pieceAtTargetInSim) (color pieceToMoveInSim))
            then
              can <- query gameSim
                       (fun g => canTakeWithSelected E g pieceAtTargetInSim) ;;
              if (can : bool) then
                command gameSim
                        (fun g => takeWithSelected E g pieceAtTargetInSim) ;;;
                ret true
              else ret false
            else ret false
        | None =>
            can <- query gameSim (fun g => canMoveSelected E g (to move)) ;;
            if (can : bool) then
              command gameSim (fun g => moveSelected E g (to move)) ;;;
              ret true
            else ret false
        end ;;
      if (moved : bool) then
        promoteToQueen_h gameSim ;;;
        command gameSim (fun g => set_currentPlayer g aiColor) ;;;
        command gameSim (toggleCurrentPlayer E) ;;;
        ret (Some gameSim)
      else ret None
  end.

Fixpoint rootLoop_h (random : nat -> Q) (gameInstance : Ref) (aiColor : Color)
         (possibleAIMoves : list Move) (sel : Selection) : Heap Selection :=
  match possibleAIMoves with
  | [] => ret sel
  | move :: rest =>
      sim <- simulateRoot_h gameInstance aiColor move ;;
      match sim with
      | None => rootLoop_h random gameInstance aiColor rest sel
      | Some gameSim =>
          currentMoveScore <-
            minimax_h (S (Z.to_nat (SEARCH_DEPTH - 1))) gameSim
                      (SEARCH_DEPTH - 1) false aiColor ;;
          if Number_gtb currentMoveScore (bestScore sel) then
            rootLoop_h random gameInstance aiColor rest
                       (mkSelection (Some move) currentMoveScore (drawn sel))
          else if Number_eqb currentMoveScore (bestScore sel) then
            if replaceOnTie (random (drawn sel)) then
              rootLoop_h random gameInstance aiColor rest
                         (mkSelection (Some move) (bestScore sel) (S (drawn sel)))
            else
              rootLoop_h random gameInstance aiColor rest
                         (mkSelection (bestMove sel) (bestScore sel) (S (drawn sel)))
          else rootLoop_h random gameInstance aiColor rest sel
      end
  end.

Definition chooseMove_h (gameInstance : Ref) (random : nat -> Q)
  : Heap (Outcome Move) :=
  aiColor <- query gameInstance currentPlayer ;;
  possibleAIMoves <- query gameInstance (fun g => enumerateMoves g aiColor) ;;
  match possibleAIMoves with
  | [] => ret (Returned None)
  | _ :: _ =>
      sel <- rootLoop_h random gameInstance aiColor possibleAIMoves
                        (mkSelection None NegInfinity 0) ;;
      let '(best, n) :=
        match bestMove sel with
        | Some m => (Some m, drawn sel)
        | None =>
            (arrayGet possibleAIMoves
               (randomIndex (random (drawn sel)) (length possibleAIMoves)),
             S (drawn sel))
        end in
      finalMoveObject <-
        match best with
        | Some bm =>
            original <- query gameInstance
                          (fun g => findPieceByPosition E g (from bm)) ;;
            match original with
            | Some originalPieceForBestMove =>
                ret (Some (mkMove originalPieceForBestMove (from bm) (to bm)))
            | None => ret None
            end
        | None => ret None
        end ;;
      match finalMoveObject with
      | Some m => ret (Returned (Some m))
      | None =>
          match arrayGet possibleAIMoves
                  (randomIndex (random n) (length possibleAIMoves)) with
          | Some randomFallbackMove => ret (Returned (Some randomFallbackMove))
          | None => ret Thrown
          end
      end
  end.

End Engine.

(** ** Scores of root moves and of leaves *)

Section Scores.

Context {Square Hidden : Type} (E : @RulesEngine Square Hidden).

(** [currentMoveScore] for a root move in the loop of [chooseMove];
    [None] when the simulation of the move is abandoned with
    [continue]. *)
Definition rootScore (gameInstance : Game) (aiColor : Color) (move : Move)
  : option Number :=
  option_map (fun gameSim => minimax E gameSim (SEARCH_DEPTH - 1) false aiColor)
             (simulateRoot E gameInstance aiColor move).

(** Lines 109-110 (and 148-149): the clone with the piece to move
    selected ([currentPiece]) and its moves recorded ([possibleMoves]),
    written out on the fields of the object. *)
Definition selectPiece (sim : Game) (pieceToMoveInSim : Piece) : Game :=
  let selected :=
    mkGame (pieces sim) (currentPlayer sim) (winner sim)
           (Some pieceToMoveInSim)
           (possibleMoves sim) (pawnThatReachedEnd sim) (hidden sim) in
  mkGame (pieces selected) (currentPlayer selected) (winner selected)
         (currentPiece selected)
         (getMoves E selected pieceToMoveInSim (generateCurrentMap E selected))
         (pawnThatReachedEnd selected) (hidden selected).

(** Lines 124-130 (and 161-167): where [checkPawnPromotion] asks for
    it, the pawn is recorded in [pawnThatReachedEnd] and promoted to a
    queen; then [currentPlayer] is set to [playerForThisTurn] and the
    turn is toggled. *)
Definition endTurn (sim : Game) (playerForThisTurn : Color) : Game :=
  let promoDetails := checkPawnPromotion E sim (currentPiece sim) in
  let promoted :=
    if needsPromotion promoDetails
    then finalizePawnPromotion
           E (mkGame (pieces sim) (currentPlayer sim) (winner sim)
                     (currentPiece sim) (possibleMoves sim)
                     (pawn promoDetails) (hidden sim))
           "queen"
    else sim in
  toggleCurrentPlayer
    E (mkGame (pieces promoted) playerForThisTurn (winner promoted)
              (currentPiece promoted) (possibleMoves promoted)
              (pawnThatReachedEnd promoted) (hidden promoted)).

(** What lines 69-75 return for a node at which the search stops. *)
Definition leafScore (g : @Game Square Hidden) (aiPlayerColor : Color) : Number :=
  match winner g with
  | Some w => if Color_eqb w aiPlayerColor then Infinity else NegInfinity
  | None => Finite (evaluateBoard g aiPlayerColor)
  end.

End Scores.

(** ** Extrema of a list of scores *)

(** The value of [maxEval] / [minEval] when the loop is left. *)
Definition extremum (isMaximizingPlayer : bool) (scores : list Number) : Number :=
  if isMaximizingPlayer
  then fold_left Math_max scores NegInfinity
  else fold_left Math_min scores Infinity.

(** [v] is the greatest (or the least) element of [scores]; for an empty
    list, [-Infinity] (or [Infinity]). *)
Definition Extremal (isMaximizingPlayer : bool) (scores : list Number)
           (v : Number) : Prop :=
  (forall x, In x scores ->
             if isMaximizingPlayer then Number_le x v else Number_le v x) /\
  match scores with
  | [] => v = if isMaximizingPlayer then NegInfinity else Infinity
  | _ :: _ => In v scores
  end.

(** ** A small rules engine: chess on one rank

    An instance of [RulesEngine] on which the code can be run; it stands
    in for the engine of the repository in the examples only.  Kings step
    to a neighbouring square, rooks slide, a piece captures an enemy piece
    by moving onto it, and capturing the king wins.  The engine's private
    field records a draw that was declared. *)

Module LineChess.

Definition width : Z := 4.

Definition pieceAt (ps : list (@Piece Z)) (sq : Z) : option (@Piece Z) :=
  List.find (fun p => position p =? sq) ps.

Definition occupancy (g : @Game Z bool) : list (Z * Color) :=
  List.map (fun p => (position p, color p)) (pieces g).

Definition colorAt (m : list (Z * Color)) (sq : Z) : option Color :=
  option_map snd (List.find (fun e => fst e =? sq) m).

(** The squares reached from [sq] in direction [dir] in at most [steps]
    steps: empty squares, then possibly an enemy piece. *)
Fixpoint ray (m : list (Z * Color)) (own : Color) (sq dir : Z) (steps : nat)
  : list Z :=
  match steps with
  | O => []
  | S k =>
      let next := sq + dir in
      if (next <? 0) || (width <=? next) then []
      else
        match colorAt m next with
        | None => next :: ray m own next dir k
        | Some c => if Color_eqb c own then [] else [next]
        end
  end.

Definition moves (g : @Game Z bool) (p : @Piece Z) (m : list (Z * Color))
  : list Z :=
  if String.eqb (type p) "king" then
    ray m (color p) (position p) (-1) 1 ++ ray m (color p) (position p) 1 1
  else if String.eqb (type p) "rook" then
    ray m (color p) (position p) (-1) (Z.to_nat width)
    ++ ray m (color p) (position p) 1 (Z.to_nat width)
  else [].

Definition relocate (g : @Game Z bool) (sq : Z) : @Game Z bool :=
  match currentPiece g with
  | None => g
  | Some cp =>
      let moved := mkPiece (type cp) (color cp) sq in
      mkGame
        (List.map (fun p => if position p =? position cp then moved else p)
                  (pieces g))
        (currentPlayer g) (winner g) (Some moved)
        (possibleMoves g) (pawnThatReachedEnd g) (hidden g)
  end.

Definition capture (g : @Game Z bool) (target : @Piece Z) : @Game Z bool :=
  let remaining :=
    List.filter (fun p => negb (position p =? position target)) (pieces g) in
  let won :=
    if String.eqb (type target) "king"
    then option_map color (currentPiece g)
    else winner g in
  relocate
    (mkGame remaining (currentPlayer g) won (currentPiece g)
            (possibleMoves g) (pawnThatReachedEnd g) (hidden g))
    (position target).

Definition inCheck (g : @Game Z bool) (c : Color) : bool :=
  existsb
    (fun k =>
       String.eqb (type k) "king" && Color_eqb (color k) c &&
       existsb
         (fun p =>
            negb (Color_eqb (color p) c) &&
            existsb (Z.eqb (position k)) (moves g p (occupancy g)))
         (pieces g))
    (pieces g).

Definition engine : @RulesEngine Z bool :=
  {| BoardMap := list (Z * Color);
     Exported := list (@Piece Z) * Color * option Color * bool;
     isFinished := fun g =>
       match winner g with Some _ => true | None => hidden g end;
     generateCurrentMap := occupancy;
     getMoves := moves;
     isCheck := inCheck;
     export := fun g => (pieces g, currentPlayer g, winner g, hidden g);
     newGame := fun '(ps, c, w, d) => mkGame ps c w None [] None d;
     findPieceByPosition := fun g sq => pieceAt (pieces g) sq;
     canTakeWithSelected := fun g target =>
       existsb (Z.eqb (position target)) (possibleMoves g);
     takeWithSelected := capture;
     canMoveSelected := fun g sq => existsb (Z.eqb sq) (possibleMoves g);
     moveSelected := relocate;
     checkPawnPromotion := fun _ _ => mkPromotionDetails false None;
     finalizePawnPromotion := fun g _ => g;
     toggleCurrentPlayer := fun g =>
       set_currentPlayer g (opponentOf (currentPlayer g)) |}.

(** The same engine with a position lookup that never finds a piece:
    every simulation faults. *)
Definition blindEngine : @RulesEngine Z bool :=
  {| BoardMap := BoardMap engine;
     Exported := Exported engine;
     isFinished := isFinished engine;
     generateCurrentMap := generateCurrentMap engine;
     getMoves := getMoves engine;
     isCheck := isCheck engine;
     export := export engine;
     newGame := newGame engine;
     findPieceByPosition := fun _ _ => None;
     canTakeWithSelected := canTakeWithSelected engine;
     takeWithSelected := takeWithSelected engine;
     canMoveSelected := canMoveSelected engine;
     moveSelected := moveSelected engine;
     checkPawnPromotion := checkPawnPromotion engine;
     finalizePawnPromotion := finalizePawnPromotion engine;
     toggleCurrentPlayer := toggleCurrentPlayer engine |}.

Definition position_of (ps : list (@Piece Z)) (toMove : Color) (drawn : bool)
  : @Game Z bool :=
  mkGame ps toMove None None [] None drawn.

(** White king on 1, black rook on 3, white to move: wherever the king
    steps, the rook takes it. *)
Definition cornered : @Game Z bool :=
  position_of [mkPiece "king" white 1; mkPiece "rook" black 3] white false.

(** White king and queen against the black king, declared drawn. *)
Definition drawnGame : @Game Z bool :=
  position_of [mkPiece "king" white 0; mkPiece "queen" white 1;
               mkPiece "king" black 3] black true.

(** Black to move: its king is walled in by its own queen and is not
    attacked. *)
Definition stalemate : @Game Z bool :=
  position_of [mkPiece "king" black 0; mkPiece "queen" black 1;
               mkPiece "king" white 3] black false.

(** White has just taken the black king. *)
Definition kingTaken : @Game Z bool :=
  mkGame [mkPiece "rook" white 0] black (Some white) None [] None false.

(** The white king of [cornered] stepping to [sq]. *)
Definition kingTo (sq : Z) : @Move Z :=
  mkMove (mkPiece "king" white 1) 1 sq.

(** White rook on 0, black queen on 2, black king on 3, white to move:
    the rook can step to 1 or take the queen and be retaken. *)
Definition rookChoice : @Game Z bool :=
  position_of [mkPiece "rook" white 0; mkPiece "queen" black 2;
               mkPiece "king" black 3] white false.

(** The white rook of [rookChoice] moving to [sq]. *)
Definition rookTo (sq : Z) : @Move Z :=
  mkMove (mkPiece "rook" white 0) 0 sq.

(** White rook on 0, black king on 2, white to move: the rook can take
    the king. *)
Definition kingHangs : @Game Z bool :=
  position_of [mkPiece "rook" white 0; mkPiece "king" black 2] white false.

(** White rook on 0, black king on 1, white to move: the only move
    takes the king. *)
Definition kingAdjacent : @Game Z bool :=
  position_of [mkPiece "rook" white 0; mkPiece "king" black 1] white false.

(** Stubs of [Math.random]. *)
Definition always (r : Q) : nat -> Q := fun _ => r.

End LineChess.

(** * Properties *)

(** ** Colours and numbers *)

Lemma Color_eqb_eq (a b : Color) : Color_eqb a b = true <-> a = b.
Proof. destruct a, b; simpl; split; congruence. Qed.

Lemma Color_eqb_refl (a : Color) : Color_eqb a a = true.
Proof. now destruct a. Qed.

Lemma opponentOf_involutive (c : Color) : opponentOf (opponentOf c) = c.
Proof. now destruct c. Qed.

Lemma Color_eqb_opponentOf (a c : Color) :
  Color_eqb a (opponentOf c) = negb (Color_eqb a c).
Proof. now destruct a, c. Qed.

Lemma Number_le_refl (a : Number) : Number_le a a.
Proof. destruct a; unfold Number_le; simpl; auto. apply Z.ltb_irrefl. Qed.

Lemma Number_le_trans (a b c : Number) :
  Number_le a b -> Number_le b c -> Number_le a c.
Proof.
  unfold Number_le.
  destruct a, b, c; simpl; try congruence.
  rewrite !Z.ltb_ge. lia.
Qed.

Lemma Math_max_ub_l (a b : Number) : Number_le a (Math_max a b).
Proof.
  unfold Number_le. destruct a, b; simpl; auto using Z.ltb_irrefl.
  apply Z.ltb_ge. lia.
Qed.

Lemma Math_max_ub_r (a b : Number) : Number_le b (Math_max a b).
Proof.
  unfold Number_le. destruct a, b; simpl; auto using Z.ltb_irrefl.
  apply Z.ltb_ge. lia.
Qed.

Lemma Math_max_cases (a b : Number) : Math_max a b = a \/ Math_max a b = b.
Proof.
  destruct a, b; simpl; auto.
  destruct (Z.max_spec z z0) as [[_ ->] | [_ ->]]; auto.
Qed.

Lemma Math_min_lb_l (a b : Number) : Number_le (Math_min a b) a.
Proof.
  unfold Number_le. destruct a, b; simpl; auto using Z.ltb_irrefl.
  apply Z.ltb_ge. lia.
Qed.

Lemma Math_min_lb_r (a b : Number) : Number_le (Math_min a b) b.
Proof.
  unfold Number_le. destruct a, b; simpl; auto using Z.ltb_irrefl.
  apply Z.ltb_ge. lia.
Qed.

Lemma Math_min_cases (a b : Number) : Math_min a b = a \/ Math_min a b = b.
Proof.
  destruct a, b; simpl; auto.
  destruct (Z.min_spec z z0) as [[_ ->] | [_ ->]]; auto.
Qed.

Lemma NegInfinity_least (a : Number) : Number_le NegInfinity a.
Proof. reflexivity. Qed.

Lemma Infinity_greatest (a : Number) : Number_le a Infinity.
Proof. now destruct a. Qed.

(** A fold of [Math.max] dominates its start value and every element, and
    is one of them. *)
Lemma fold_max_bounds (l : list Number) (acc : Number) :
  let v := fold_left Math_max l acc in
  Number_le acc v /\ (forall x, In x l -> Number_le x v) /\
  (v = acc \/ In v l).
Proof.
  revert acc. induction l as [| y l IH]; intros acc; simpl.
  - split; [apply Number_le_refl | split; [tauto | auto]].
  - destruct (IH (Math_max acc y)) as (Hacc & Hall & Hin).
    split; [| split].
    + eapply Number_le_trans; [apply Math_max_ub_l | exact Hacc].
    + intros x [<- | Hx]; [| auto].
      eapply Number_le_trans; [apply Math_max_ub_r | exact Hacc].
    + destruct Hin as [Hv | Hv]; [| auto].
      destruct (Math_max_cases acc y) as [Hm | Hm]; [left | right; left];
      congruence.
Qed.

Lemma fold_min_bounds (l : list Number) (acc : Number) :
  let v := fold_left Math_min l acc in
  Number_le v acc /\ (forall x, In x l -> Number_le v x) /\
  (v = acc \/ In v l).
Proof.
  revert acc. induction l as [| y l IH]; intros acc; simpl.
  - split; [apply Number_le_refl | split; [tauto | auto]].
  - destruct (IH (Math_min acc y)) as (Hacc & Hall & Hin).
    split; [| split].
    + eapply Number_le_trans; [exact Hacc | apply Math_min_lb_l].
    + intros x [<- | Hx]; [| auto].
      eapply Number_le_trans; [exact Hacc | apply Math_min_lb_r].
    + destruct Hin as [Hv | Hv]; [| auto].
      destruct (Math_min_cases acc y) as [Hm | Hm]; [left | right; left];
      congruence.
Qed.

Lemma Number_le_antisym (a b : Number) :
  Number_le a b -> Number_le b a -> a = b.
Proof.
  unfold Number_le. destruct a, b; simpl; try congruence.
  rewrite !Z.ltb_ge. intros. f_equal. lia.
Qed.

(** [extremum] returns the greatest / least score. *)
Lemma extremum_Extremal (isMax : bool) (scores : list Number) :
  Extremal isMax scores (extremum isMax scores).
Proof.
  unfold Extremal, extremum. destruct isMax.
  - destruct (fold_max_bounds scores NegInfinity) as (_ & Hall & Hin).
    split; [exact Hall |].
    destruct scores as [| y l]; [reflexivity |].
    destruct Hin as [Hv | Hv]; [| exact Hv].
    left. apply Number_le_antisym.
    + apply Hall. now left.
    + rewrite Hv. apply NegInfinity_least.
  - destruct (fold_min_bounds scores Infinity) as (_ & Hall & Hin).
    split; [exact Hall |].
    destruct scores as [| y l]; [reflexivity |].
    destruct Hin as [Hv | Hv]; [| exact Hv].
    left. apply Number_le_antisym.
    + rewrite Hv. apply Infinity_greatest.
    + apply Hall. now left.
Qed.

(** ** The evaluator *)

Section Evaluation.

Context {Square Hidden : Type}.

Lemma evaluateBoard_fold (ps : list (@Piece Square)) (c : Color) (acc : Z) :
  fold_left
    (fun score piece =>
       let pieceValue := getPieceValue (type piece) in
       if Color_eqb (color piece) c
       then score + pieceValue
       else score - pieceValue)
    ps acc
  = acc + material ps c - material ps (opponentOf c).
Proof.
  revert acc. induction ps as [| p ps IH]; intros acc; simpl.
  - unfold material; simpl. lia.
  - rewrite IH. unfold material; simpl.
    rewrite Color_eqb_opponentOf.
    destruct (Color_eqb (color p) c); simpl; lia.
Qed.

(** C5.  [evaluateBoard] is the material of the given colour minus the
    material of the other colour, with the six fixed piece values and 0
    for any other kind; hence evaluating for the other colour negates
    the score. *)
Theorem evaluateBoard_material_difference :
  (getPieceValue "pawn" = 100 /\ getPieceValue "knight" = 320 /\
   getPieceValue "bishop" = 330 /\ getPieceValue "rook" = 500 /\
   getPieceValue "queen" = 900 /\ getPieceValue "king" = 20000) /\
  (forall kind : string,
      In kind ["pawn"; "knight"; "bishop"; "rook"; "queen"; "king"]%string \/
      getPieceValue kind = 0) /\
  (forall (g : @Game Square Hidden) (c : Color),
      evaluateBoard g c
      = material (pieces g) c - material (pieces g) (opponentOf c)) /\
  (forall (g : @Game Square Hidden) (c : Color),
      evaluateBoard g c = - evaluateBoard g (opponentOf c)).
Proof.
  split; [repeat split; reflexivity |].
  split.
  { intros kind. unfold getPieceValue.
    repeat match goal with
           | |- context [String.eqb kind ?k] =>
               destruct (String.eqb_spec kind k) as [-> | _];
               [left; simpl; tauto |]
           end.
    now right. }
  split; intros g c; unfold evaluateBoard; rewrite !evaluateBoard_fold.
  - lia.
  - rewrite opponentOf_involutive. lia.
Qed.

End Evaluation.

(** ** The search *)

Section SearchFacts.

Context {Square Hidden : Type} (E : @RulesEngine Square Hidden).

Implicit Types (g child : @Game Square Hidden) (depth : Z)
         (isMax : bool) (ai : Color).

(** The loop only consults [recur] on the children. *)
Lemma searchLoop_ext (r1 r2 : Game -> option Number) combine g player
      (legalMoves : list Move) (acc : Number) :
  (forall child, r1 child = r2 child) ->
  searchLoop E r1 combine g player legalMoves acc
  = searchLoop E r2 combine g player legalMoves acc.
Proof.
  intros Hext. revert acc.
  induction legalMoves as [| move rest IH]; intros acc; simpl; [reflexivity |].
  destruct (simulate E g player move) as [c |]; [| apply IH].
  rewrite Hext. destruct (r2 c); [apply IH | reflexivity].
Qed.

(** When every recursive call returns, the loop returns the fold of
    [combine] over the scores of the children. *)
Lemma searchLoop_value (recur : Game -> option Number) (F : Game -> Number)
      combine g player (legalMoves : list Move) (acc : Number) :
  (forall child, recur child = Some (F child)) ->
  searchLoop E recur combine g player legalMoves acc
  = Some (fold_left combine (List.map F (children E g player legalMoves)) acc).
Proof.
  intros Hrec. revert acc. unfold children.
  induction legalMoves as [| move rest IH]; intros acc; simpl; [reflexivity |].
  destruct (simulate E g player move) as [c |]; simpl; [| apply IH].
  rewrite Hrec. apply IH.
Qed.

Lemma children_nil g player (legalMoves : list Move) :
  (forall move, In move legalMoves -> simulate E g player move = None) ->
  children E g player legalMoves = [].
Proof.
  unfold children.
  induction legalMoves as [| move rest IH]; intros Hall; simpl; [reflexivity |].
  rewrite (Hall move) by now left.
  apply IH. intros m Hm. apply Hall. now right.
Qed.

(** The body consults [recur] only at [depth - 1], with the flag
    flipped and the same AI colour. *)
Lemma minimax_body_ext
      (r1 r2 : Game -> Z -> bool -> Color -> option Number)
      g depth isMax ai :
  (forall child, r1 child (depth - 1) (negb isMax) ai
                 = r2 child (depth - 1) (negb isMax) ai) ->
  minimax_body E r1 g depth isMax ai = minimax_body E r2 g depth isMax ai.
Proof.
  intros Hext. unfold minimax_body.
  destruct ((depth =? 0) || isFinished E g); [reflexivity |].
  destruct (enumerateMoves E g _) as [| move rest]; [reflexivity |].
  destruct isMax; apply searchLoop_ext; exact Hext.
Qed.

(** A terminal node returns without consulting [recur]. *)
Lemma minimax_body_terminal
      (recur : Game -> Z -> bool -> Color -> option Number)
      g depth isMax ai :
  (depth =? 0) || isFinished E g = true ->
  minimax_body E recur g depth isMax ai
  = Some match winner g with
         | Some w => if Color_eqb w ai then Infinity else NegInfinity
         | None => Finite (evaluateBoard g ai)
         end.
Proof.
  intros Hterm. unfold minimax_body. rewrite Hterm.
  destruct (winner g) as [w |]; [destruct (Color_eqb w ai) |]; reflexivity.
Qed.

(** An inner node returns the value computed from its children. *)
Lemma minimax_body_inner
      (recur : Game -> Z -> bool -> Color -> option Number)
      (F : Game -> Number) g depth isMax ai :
  (depth =? 0) || isFinished E g = false ->
  (forall child, recur child (depth - 1) (negb isMax) ai = Some (F child)) ->
  minimax_body E recur g depth isMax ai
  = Some match enumerateMoves E g (sideToMove isMax ai) with
         | [] =>
             if isCheck E g (sideToMove isMax ai)
             then (if isMax then NegInfinity else Infinity)
             else Finite 0
         | legalMoves =>
             extremum isMax
               (List.map F (children E g (sideToMove isMax ai) legalMoves))
         end.
Proof.
  intros Hterm Hrec. unfold minimax_body.
  rewrite Hterm. cbv zeta.
  destruct (enumerateMoves E g _) as [| move rest] eqn:Hmoves.
  - destruct (isCheck E g _); reflexivity.
  - destruct isMax; unfold extremum;
      apply searchLoop_value with (F := F); exact Hrec.
Qed.

(** With more fuel than the depth, [minimax_fuel] returns the value
    [minimax]. *)
Lemma minimax_fuel_minimax (fuel : nat) g depth isMax ai :
  0 <= depth -> (Z.to_nat depth < fuel)%nat ->
  minimax_fuel E fuel g depth isMax ai = Some (minimax E g depth isMax ai).
Proof.
  intros Hdepth.
  remember (Z.to_nat depth) as n eqn:Hn.
  revert fuel g depth isMax Hdepth Hn.
  induction n as [| n IH]; intros fuel g depth isMax Hdepth Hn Hfuel.
  - assert (depth = 0) as -> by lia.
    destruct fuel as [| fuel]; [lia |].
    unfold minimax. simpl.
    rewrite !minimax_body_terminal by reflexivity. reflexivity.
  - destruct fuel as [| fuel]; [lia |].
    unfold minimax. rewrite <- Hn.
    cbn [minimax_fuel].
    destruct ((depth =? 0) || isFinished E g) eqn:Hterm.
    + rewrite !minimax_body_terminal by exact Hterm. reflexivity.
    + set (F := fun child => minimax E child (depth - 1) (negb isMax) ai).
      rewrite (minimax_body_inner (minimax_fuel E fuel) F) by
        (try exact Hterm; intros child; apply IH; lia).
      rewrite (minimax_body_inner (minimax_fuel E (S n)) F) by
        (try exact Hterm; intros child; apply IH; lia).
      reflexivity.
Qed.

Lemma minimax_terminal g depth isMax ai :
  (depth =? 0) || isFinished E g = true ->
  minimax E g depth isMax ai
  = match winner g with
    | Some w => if Color_eqb w ai then Infinity else NegInfinity
    | None => Finite (evaluateBoard g ai)
    end.
Proof.
  intros Hterm. unfold minimax. cbn [minimax_fuel].
  rewrite minimax_body_terminal by exact Hterm. reflexivity.
Qed.

Lemma minimax_finished_without_winner g depth isMax ai :
  isFinished E g = true -> winner g = None ->
  minimax E g depth isMax ai = Finite (evaluateBoard g ai).
Proof.
  intros Hfin Hw. rewrite minimax_terminal.
  - now rewrite Hw.
  - rewrite Hfin. apply orb_true_r.
Qed.

Lemma minimax_inner g depth isMax ai :
  0 < depth -> isFinished E g = false ->
  minimax E g depth isMax ai
  = match enumerateMoves E g (sideToMove isMax ai) with
    | [] =>
        if isCheck E g (sideToMove isMax ai)
        then (if isMax then NegInfinity else Infinity)
        else Finite 0
    | legalMoves =>
        extremum isMax
          (List.map (fun child => minimax E child (depth - 1) (negb isMax) ai)
                    (children E g (sideToMove isMax ai) legalMoves))
    end.
Proof.
  intros Hdepth Hfin.
  assert (Hterm : (depth =? 0) || isFinished E g = false).
  { rewrite Hfin. destruct (Z.eqb_spec depth 0); [lia | reflexivity]. }
  unfold minimax. cbn [minimax_fuel].
  rewrite (minimax_body_inner _
             (fun child => minimax E child (depth - 1) (negb isMax) ai)).
  - reflexivity.
  - exact Hterm.
  - intros child. apply minimax_fuel_minimax; lia.
Qed.

Lemma terminal_test depth g :
  depth = 0 \/ isFinished E g = true ->
  (depth =? 0) || isFinished E g = true.
Proof.
  intros [-> | ->]; [reflexivity | apply orb_true_r].
Qed.

(** What [simulate] does with a move: it works on a fresh clone
    [new Game(g.export())]; it faults when the clone has no piece on the
    origin, or has a piece of the mover's colour on the destination;
    otherwise the child is that clone after the piece was selected, the
    capture ([takeWithSelected], enemy piece on the destination) or the
    plain move ([moveSelected], empty destination) was made, and the
    turn was ended. *)
Lemma simulate_outcome g (player : Color) (move : Move) :
  match findPieceByPosition E (newGame E (export E g)) (from move) with
  | None => simulate E g player move = None
  | Some p =>
      match findPieceByPosition
              E (selectPiece E (newGame E (export E g)) p) (to move) with
      | Some t =>
          if Color_eqb (color t) (color p)
          then simulate E g player move = None
          else simulate E g player move
               = Some (endTurn E
                         (takeWithSelected
                            E (selectPiece E (newGame E (export E g)) p) t)
                         player)
      | None =>
          simulate E g player move
          = Some (endTurn E
                    (moveSelected
                       E (selectPiece E (newGame E (export E g)) p) (to move))
                    player)
      end
  end.
Proof.
  unfold simulate, selectPiece, endTurn, promoteToQueen,
    set_currentPlayer, set_pawnThatReachedEnd, set_possibleMoves,
    set_currentPiece.
  cbn [pieces currentPlayer winner currentPiece possibleMoves
       pawnThatReachedEnd hidden].
  destruct (findPieceByPosition E (newGame E (export E g)) (from move))
    as [p |]; [| reflexivity].
  cbv zeta.
  match goal with
  | |- context [findPieceByPosition E ?sim (to move)] =>
      destruct (findPieceByPosition E sim (to move)) as [t |]
  end; [| reflexivity].
  destruct (Color_eqb (color t) (color p)); reflexivity.
Qed.

(** C1.  At an inner node (undecided game, depth > 0, some legal move)
    [minimax] is the maximum, or for the minimizing side the minimum,
    of the values of [minimax] at depth - 1 with the flag flipped over
    the children.  The children are the results of simulating each
    legal move, moves whose simulation faults being skipped without
    ending the loop.  A simulation works on a fresh clone of the state:
    it faults when the clone has no piece on the origin of the move or
    has a piece of the mover's colour on its destination, and otherwise
    yields the clone with the move applied (piece selected, capture or
    plain move made, promotion and change of turn). *)
Theorem minimax_internal_node g depth isMax ai :
  0 < depth ->
  isFinished E g = false ->
  enumerateMoves E g (sideToMove isMax ai) <> [] ->
  let player := sideToMove isMax ai in
  let legalMoves := enumerateMoves E g player in
  let scores :=
    List.map (fun child => minimax E child (depth - 1) (negb isMax) ai)
             (children E g player legalMoves) in
  minimax E g depth isMax ai = extremum isMax scores /\
  Extremal isMax scores (minimax E g depth isMax ai) /\
  (forall child,
      In child (children E g player legalMoves) <->
      exists move, In move legalMoves /\ simulate E g player move = Some child) /\
  (forall move,
      let clone := newGame E (export E g) in
      match findPieceByPosition E clone (from move) with
      | None => simulate E g player move = None
      | Some p =>
          match findPieceByPosition E (selectPiece E clone p) (to move) with
          | Some t =>
              if Color_eqb (color t) (color p)
              then simulate E g player move = None
              else simulate E g player move
                   = Some (endTurn E (takeWithSelected E (selectPiece E clone p) t)
                                   player)
          | None =>
              simulate E g player move
              = Some (endTurn E (moveSelected E (selectPiece E clone p) (to move))
                              player)
          end
      end).
Proof.
  intros Hdepth Hfin Hmoves player legalMoves scores.
  assert (Heq : minimax E g depth isMax ai = extremum isMax scores).
  { rewrite minimax_inner by assumption.
    fold player. fold legalMoves.
    destruct legalMoves eqn:Hl; [contradiction | reflexivity]. }
  split; [exact Heq |].
  split; [rewrite Heq; apply extremum_Extremal |].
  split.
  - intros child. unfold children.
    rewrite <- list_elem_of_In, list_elem_of_omap.
    split; intros (move & Hin & Hsim); exists move;
      (split; [apply list_elem_of_In; exact Hin | exact Hsim]).
  - intros move. apply simulate_outcome.
Qed.

(** C2.  At a node where the depth is 0 or the game is finished, and a
    winner is recorded, [minimax] returns [Infinity] when the winner is
    the AI's colour and [-Infinity] when it is the other colour,
    whatever the pieces on the board. *)
Theorem minimax_decided_outcome g depth isMax ai (w : Color) :
  0 <= depth ->
  depth = 0 \/ isFinished E g = true ->
  winner g = Some w ->
  (w = ai -> minimax E g depth isMax ai = Infinity) /\
  (w = opponentOf ai -> minimax E g depth isMax ai = NegInfinity).
Proof.
  intros _ Hterm Hw.
  rewrite minimax_terminal by (apply terminal_test; exact Hterm).
  rewrite Hw. split; intros ->.
  - now rewrite Color_eqb_refl.
  - now destruct ai.
Qed.

(** C3.  At a node with depth > 0 and an undecided game whose side to
    move has no legal move, [minimax] returns [-Infinity] (maximizing
    side) or [Infinity] (minimizing side) when that side is in check,
    and 0 when it is not. *)
Theorem minimax_no_legal_moves g depth isMax ai :
  0 < depth ->
  isFinished E g = false ->
  enumerateMoves E g (sideToMove isMax ai) = [] ->
  minimax E g depth isMax ai
  = if isCheck E g (sideToMove isMax ai)
    then (if isMax then NegInfinity else Infinity)
    else Finite 0.
Proof.
  intros Hdepth Hfin Hmoves.
  rewrite minimax_inner by assumption. now rewrite Hmoves.
Qed.

(** C4 (amended).  A node whose game is finished without a winner is
    scored by the static evaluation, at any depth, for either flag and
    any AI colour: the material of the AI's colour minus the material
    of the other colour.  The score is 0 exactly when the two sides
    have the same material. *)
Theorem minimax_drawn_game_static_evaluation g depth isMax ai :
  isFinished E g = true ->
  winner g = None ->
  minimax E g depth isMax ai = Finite (evaluateBoard g ai) /\
  evaluateBoard g ai
  = material (pieces g) ai - material (pieces g) (opponentOf ai) /\
  (minimax E g depth isMax ai = Finite 0 <->
   material (pieces g) ai = material (pieces g) (opponentOf ai)).
Proof.
  intros Hfin Hw.
  assert (Hscore : minimax E g depth isMax ai = Finite (evaluateBoard g ai)).
  { rewrite minimax_terminal by (rewrite Hfin; apply orb_true_r).
    now rewrite Hw. }
  assert (Heval : evaluateBoard g ai
                  = material (pieces g) ai - material (pieces g) (opponentOf ai)).
  { unfold evaluateBoard. rewrite evaluateBoard_fold. lia. }
  split; [exact Hscore |]. split; [exact Heval |].
  rewrite Hscore, Heval. split.
  - intros [= H]. lia.
  - intros ->. f_equal. lia.
Qed.

(** C9.  For a depth >= 0 the recursion of [minimax] ends: with any
    bound above the depth the call returns, always the same value; the
    body makes its recursive calls at depth - 1 only; and a node with
    depth 0 or a finished game returns without a recursive call. *)
Theorem minimax_terminates g depth isMax ai :
  0 <= depth ->
  (exists v, forall fuel, (Z.to_nat depth < fuel)%nat ->
                          minimax_fuel E fuel g depth isMax ai = Some v) /\
  (forall r1 r2 : Game -> Z -> bool -> Color -> option Number,
      (forall child, r1 child (depth - 1) (negb isMax) ai
                     = r2 child (depth - 1) (negb isMax) ai) ->
      minimax_body E r1 g depth isMax ai
      = minimax_body E r2 g depth isMax ai) /\
  (depth = 0 \/ isFinished E g = true ->
   exists v, forall recur, minimax_body E recur g depth isMax ai = Some v).
Proof.
  intros Hdepth. split; [| split].
  - exists (minimax E g depth isMax ai). intros fuel Hfuel.
    apply minimax_fuel_minimax; assumption.
  - intros r1 r2. apply minimax_body_ext.
  - intros Hterm. eexists. intros recur.
    apply minimax_body_terminal, terminal_test, Hterm.
Qed.

(** C10.  At an inner node where the simulation of every legal move
    faults, [minimax] returns the start value of its accumulator:
    [-Infinity] when maximizing and [Infinity] when minimizing, the
    very values used for a lost and a won game. *)
Theorem minimax_all_branches_skipped g depth isMax ai :
  0 < depth ->
  isFinished E g = false ->
  enumerateMoves E g (sideToMove isMax ai) <> [] ->
  (forall move, In move (enumerateMoves E g (sideToMove isMax ai)) ->
                simulate E g (sideToMove isMax ai) move = None) ->
  minimax E g depth isMax ai = if isMax then NegInfinity else Infinity.
Proof.
  intros Hdepth Hfin Hmoves Hfault.
  rewrite minimax_inner by assumption.
  destruct (enumerateMoves E g _) as [| move rest] eqn:Hl; [contradiction |].
  rewrite children_nil by exact Hfault.
  now destruct isMax.
Qed.

End SearchFacts.

(** ** Move selection *)

Lemma arrayGet_In {A : Type} (arr : list A) (k : Z) (x : A) :
  arrayGet arr k = Some x -> In x arr.
Proof.
  unfold arrayGet. destruct (k <? 0); [discriminate |].
  apply nth_error_In.
Qed.

(** *** The rounded product of a draw and a length *)

Lemma pow2_pos (e : Z) : (0 < 2 ^ e)%Q.
Proof. apply Qpower_0_lt. reflexivity. Qed.

Lemma pow2_nonneg_exponent (k : Z) : 0 <= k -> (2 ^ k == inject_Z (2 ^ k))%Q.
Proof. intros Hk. now rewrite Zpower_Qpower. Qed.

Lemma binade_le (x : Q) : (0 < x)%Q -> (2 ^ binade x <= x)%Q.
Proof.
  intros Hx. unfold binade.
  destruct (Qle_bool _ x) eqn:Htest; [now apply Qle_bool_iff |].
  destruct x as [n d]. cbn [Qnum Qden].
  assert (Hn : 0 < n) by (unfold Qlt in Hx; simpl in Hx; lia).
  set (a := Z.log2 n). set (c := Z.log2 (Z.pos d)).
  assert (Ha : 0 <= a) by apply Z.log2_nonneg.
  assert (Hc : 0 <= c) by apply Z.log2_nonneg.
  assert (Hna : 2 ^ a <= n) by (apply Z.log2_spec; exact Hn).
  assert (Hdc : Z.pos d < 2 ^ (c + 1)).
  { replace (c + 1) with (Z.succ c) by lia. apply Z.log2_spec. lia. }
  replace (a - c - 1) with (a - (c + 1)) by lia.
  rewrite Qpower_minus by discriminate.
  rewrite !pow2_nonneg_exponent by lia.
  assert (Hpow : 0 < 2 ^ (c + 1)) by (apply Z.pow_pos_nonneg; lia).
  apply Qle_shift_div_r.
  - rewrite <- (Zlt_Qlt 0). exact Hpow. 
  - unfold Qle, Qmult, inject_Z. cbn [Qnum Qden].
    rewrite Pos.mul_1_r, Z.mul_1_r.
    assert (0 < 2 ^ a) by (apply Z.pow_pos_nonneg; lia).
    generalize dependent (2 ^ a). generalize dependent (2 ^ (c + 1)).
    intros. nia.
Qed.

Lemma roundHalfEven_nonneg (q : Q) : (0 <= q)%Q -> 0 <= roundHalfEven q.
Proof.
  intros Hq. unfold roundHalfEven.
  assert (Hf : 0 <= Qfloor q).
  { change 0 with (Qfloor 0). now apply Qfloor_resp_le. }
  destruct (Qcompare _ _); [destruct (Z.even _) | |]; lia.
Qed.

Lemma roundHalfEven_le (q : Q) : (inject_Z (roundHalfEven q) <= q + (1 # 2))%Q.
Proof.
  unfold roundHalfEven.
  pose proof (Qfloor_le q) as Hfl.
  destruct (Qcompare (q - inject_Z (Qfloor q)) (1 # 2)) eqn:Hcmp.
  - apply Qeq_alt in Hcmp.
    destruct (Z.even _); [lra |].
    rewrite inject_Z_plus. change (inject_Z 1) with 1%Q. lra.
  - lra.
  - apply Qgt_alt in Hcmp.
    rewrite inject_Z_plus. change (inject_Z 1) with 1%Q. lra.
Qed.

Lemma ulp_pos (x : Q) : (0 < ulp x)%Q.
Proof. apply pow2_pos. Qed.

Lemma ulp_half_le (x : Q) :
  (0 < x)%Q -> (ulp x * (1 # 2) <= x * (1 # 9007199254740992) + (1 # 162259276829213363391578010288128))%Q.
Proof.
  intros Hx. unfold ulp.
  pose proof (binade_le x Hx) as Hb.
  destruct (Z.max_spec (binade x) (-1022)) as [[Hlt ->] | [Hle ->]].
  - change ((2 ^ (-1022 - 52))%Q) with ((2 ^ (-1074))%Q).
    assert (H : (2 ^ (-1074) <= 1 # 81129638414606681695789005144064)%Q) by (vm_compute; discriminate).
    assert (H2 : ((1 # 81129638414606681695789005144064) * (1 # 2) == 1 # 162259276829213363391578010288128)%Q) by reflexivity.
    lra.
  - replace (binade x - 52) with (binade x + -52) by lia.
    rewrite Qpower_plus by discriminate.
    change ((2 ^ (-52))%Q) with (1 # 4503599627370496)%Q.
    assert (0 < 1 # 162259276829213363391578010288128)%Q by reflexivity.
    lra.
Qed.


Lemma roundToDouble_pos_bounds (x : Q) :
  (0 < x)%Q ->
  (0 <= roundToDouble x)%Q /\
  (roundToDouble x <= x + x * (1 # 9007199254740992) + (1 # 162259276829213363391578010288128))%Q.
Proof.
  intros Hx. unfold roundToDouble.
  assert (Hcmp : Qcompare x 0 = Gt) by (apply Qgt_alt; exact Hx).
  rewrite Hcmp.
  pose proof (ulp_pos x) as Hu.
  pose proof (ulp_half_le x Hx) as Hhalf.
  assert (Hq : (0 <= x / ulp x)%Q).
  { apply Qle_shift_div_l; [exact Hu | lra]. }
  pose proof (roundHalfEven_nonneg _ Hq) as Hm0.
  pose proof (roundHalfEven_le (x / ulp x)) as Hm1.
  set (m := roundHalfEven (x / ulp x)) in *.
  split.
  - apply Qmult_le_0_compat; [| lra].
    change 0%Q with (inject_Z 0). rewrite <- Zle_Qle. exact Hm0.
  - assert (Hmul : (inject_Z m * ulp x <= (x / ulp x + (1 # 2)) * ulp x)%Q).
    { apply Qmult_le_compat_r; [exact Hm1 | lra]. }
    assert (Hfield : ((x / ulp x + (1 # 2)) * ulp x == x + ulp x * (1 # 2))%Q).
    { field. lra. }
    lra.
Qed.

Lemma randomIndex_range (r : Q) (len : nat) :
  (0 <= r)%Q -> (0 < len)%nat ->
  0 <= randomIndex r len < Z.of_nat len.
Proof.
  intros Hr Hlen. unfold randomIndex.
  set (draw := if Qle_bool r greatestDraw then r else greatestDraw).
  assert (Hdraw : (0 <= draw)%Q /\ (draw <= greatestDraw)%Q).
  { unfold draw. destruct (Qle_bool r greatestDraw) eqn:Hle.
    - apply Qle_bool_iff in Hle. auto.
    - split; [vm_compute; discriminate | apply Qle_refl]. }
  destruct Hdraw as (Hd0 & Hd1).
  set (L := inject_Z (Z.of_nat len)).
  assert (HL : (1 <= L)%Q).
  { unfold L. change 1%Q with (inject_Z 1). rewrite <- Zle_Qle. lia. }
  assert (Hx0 : (0 <= draw * L)%Q) by (apply Qmult_le_0_compat; lra).
  assert (Hx1 : (draw * L <= greatestDraw * L)%Q)
    by (apply Qmult_le_compat_r; lra).
  assert (Hround : (0 <= roundToDouble (draw * L))%Q /\
                   (roundToDouble (draw * L) < L)%Q).
  { set (x := (draw * L)%Q) in *.
    destruct (Qlt_le_dec 0 x) as [Hpos | Hzero].
    - destruct (roundToDouble_pos_bounds _ Hpos) as (H0 & H1).
      split; [exact H0 |].
      unfold greatestDraw in Hx1.
      assert (0 < 1 # 162259276829213363391578010288128)%Q by reflexivity.
      assert (Hc : ((1 # 162259276829213363391578010288128) < (1 # 81129638414606681695789005144064) * L)%Q).
      { assert ((1 # 162259276829213363391578010288128) < (1 # 81129638414606681695789005144064))%Q by reflexivity.
        assert ((1 # 81129638414606681695789005144064) * 1 <= (1 # 81129638414606681695789005144064) * L)%Q
          by (apply Qmult_le_l; [reflexivity | exact HL]).
        lra. }
      lra.
    - assert (Heq : (x == 0)%Q) by lra.
      unfold roundToDouble.
      assert (Hcmp : Qcompare x 0 = Eq) by (apply Qeq_alt; exact Heq).
      rewrite Hcmp. lra. }
  destruct Hround as (H0 & H1). split.
  - change 0 with (Qfloor 0). now apply Qfloor_resp_le.
  - rewrite Zlt_Qlt. fold L.
    eapply Qle_lt_trans; [apply Qfloor_le | exact H1].
Qed.

Lemma binade_lt (x : Q) : (0 < x)%Q -> (x < 2 ^ (binade x + 1))%Q.
Proof.
  intros Hx. unfold binade.
  destruct (Qle_bool _ x) eqn:Htest.
  - destruct x as [n d]. cbn [Qnum Qden].
    assert (Hn : 0 < n) by (unfold Qlt in Hx; simpl in Hx; lia).
    set (a := Z.log2 n). set (c := Z.log2 (Z.pos d)).
    assert (Ha : 0 <= a) by apply Z.log2_nonneg.
    assert (Hc : 0 <= c) by apply Z.log2_nonneg.
    assert (Hna : n < 2 ^ (a + 1)).
    { replace (a + 1) with (Z.succ a) by lia. apply Z.log2_spec. exact Hn. }
    assert (Hdc : 2 ^ c <= Z.pos d) by (apply Z.log2_spec; lia).
    replace (a - c + 1) with (a + 1 - c) by lia.
    rewrite Qpower_minus by discriminate.
    rewrite !pow2_nonneg_exponent by lia.
    assert (Hpow : 0 < 2 ^ c) by (apply Z.pow_pos_nonneg; lia).
    apply Qlt_shift_div_l.
    + rewrite <- (Zlt_Qlt 0). exact Hpow.
    + unfold Qlt, Qmult, inject_Z. cbn [Qnum Qden].
      rewrite Pos.mul_1_r, Z.mul_1_r.
      generalize dependent (2 ^ (a + 1)). generalize dependent (2 ^ c).
      intros. nia.
  - replace (Z.log2 (Qnum x) - Z.log2 (Z.pos (Qden x)) - 1 + 1)
      with (Z.log2 (Qnum x) - Z.log2 (Z.pos (Qden x))) by lia.
    apply Qnot_le_lt. intros Hle. apply Qle_bool_iff in Hle. congruence.
Qed.

Lemma roundHalfEven_ge (q : Q) : (q - (1 # 2) <= inject_Z (roundHalfEven q))%Q.
Proof.
  unfold roundHalfEven.
  pose proof (Qlt_floor q) as Hfl.
  rewrite inject_Z_plus in Hfl. change (inject_Z 1) with 1%Q in Hfl.
  destruct (Qcompare (q - inject_Z (Qfloor q)) (1 # 2)) eqn:Hcmp.
  - apply Qeq_alt in Hcmp.
    destruct (Z.even _); [lra |].
    rewrite inject_Z_plus. change (inject_Z 1) with 1%Q. lra.
  - apply Qlt_alt in Hcmp. lra.
  - rewrite inject_Z_plus. change (inject_Z 1) with 1%Q. lra.
Qed.

(** [roundToDouble] returns a multiple of the spacing of the doubles
    around [x], at most half that spacing away from [x]. *)
Lemma roundToDouble_nearest (x : Q) :
  (0 < x)%Q ->
  exists m : Z,
    (roundToDouble x == inject_Z m * ulp x)%Q /\
    (x - ulp x * (1 # 2) <= roundToDouble x)%Q /\
    (roundToDouble x <= x + ulp x * (1 # 2))%Q.
Proof.
  intros Hx. unfold roundToDouble.
  assert (Hcmp : Qcompare x 0 = Gt) by (apply Qgt_alt; exact Hx).
  rewrite Hcmp.
  pose proof (ulp_pos x) as Hu.
  pose proof (roundHalfEven_le (x / ulp x)) as Hm1.
  pose proof (roundHalfEven_ge (x / ulp x)) as Hm0.
  set (m := roundHalfEven (x / ulp x)) in *.
  exists m. split; [reflexivity |].
  assert (Hup : (inject_Z m * ulp x <= (x / ulp x + (1 # 2)) * ulp x)%Q)
    by (apply Qmult_le_compat_r; [exact Hm1 | lra]).
  assert (Hlo : ((x / ulp x - (1 # 2)) * ulp x <= inject_Z m * ulp x)%Q)
    by (apply Qmult_le_compat_r; [exact Hm0 | lra]).
  assert (Hf1 : ((x / ulp x + (1 # 2)) * ulp x == x + ulp x * (1 # 2))%Q)
    by (field; lra).
  assert (Hf2 : ((x / ulp x - (1 # 2)) * ulp x == x - ulp x * (1 # 2))%Q)
    by (field; lra).
  lra.
Qed.

(** A draw in [0, 1) indexes an element of a non-empty array. *)
Lemma arrayGet_randomIndex {A : Type} (arr : list A) (r : Q) :
  arr <> [] -> (0 <= r)%Q -> (r < 1)%Q ->
  exists x, arrayGet arr (randomIndex r (length arr)) = Some x.
Proof.
  intros Hne Hlo _.
  assert (Hlen : (0 < length arr)%nat)
    by (destruct arr; [contradiction | simpl; lia]).
  pose proof (randomIndex_range r (length arr) Hlo Hlen) as [H0 H1].
  unfold arrayGet.
  destruct (Z.ltb_spec (randomIndex r (length arr)) 0) as [Hneg | _]; [lia |].
  destruct (nth_error arr (Z.to_nat (randomIndex r (length arr)))) as [x |] eqn:Hnth.
  - now exists x.
  - apply nth_error_None in Hnth. lia.
Qed.

Section SelectionFacts.

Context {Square Hidden : Type} (E : @RulesEngine Square Hidden).

Implicit Types (g : @Game Square Hidden) (random : nat -> Q)
         (sel : @Selection Square).

(** The loop reads the draws through [replaceOnTie] only. *)
Lemma rootLoop_stubbed (b : bool) random1 random2 g (ai : Color)
      (possibleAIMoves : list Move) sel1 sel2 :
  TieBreakStubbed b random1 -> TieBreakStubbed b random2 ->
  bestMove sel1 = bestMove sel2 -> bestScore sel1 = bestScore sel2 ->
  bestMove (rootLoop E random1 g ai possibleAIMoves sel1)
  = bestMove (rootLoop E random2 g ai possibleAIMoves sel2).
Proof.
  intros H1 H2. revert sel1 sel2.
  induction possibleAIMoves as [| move rest IH];
    intros sel1 sel2 Hm Hs; simpl; [exact Hm |].
  destruct (simulateRoot E g ai move) as [sim |]; [| now apply IH].
  rewrite <- Hs, H1, H2.
  destruct (Number_gtb _ _); [now apply IH |].
  destruct (Number_eqb _ _); [| now apply IH].
  destruct b; now apply IH.
Qed.

Lemma rootLoop_ext random1 random2 g (ai : Color)
      (possibleAIMoves : list Move) sel :
  (forall i, random1 i = random2 i) ->
  rootLoop E random1 g ai possibleAIMoves sel
  = rootLoop E random2 g ai possibleAIMoves sel.
Proof.
  intros Hext. revert sel.
  induction possibleAIMoves as [| move rest IH]; intros sel; simpl;
    [reflexivity |].
  destruct (simulateRoot E g ai move) as [sim |]; [| apply IH].
  rewrite Hext, !IH. reflexivity.
Qed.

(** A move selected by the loop whose piece is found again is the
    result. *)
Lemma chooseMove_resolved g random (bm : Move) (p : Piece) :
  bestMove (searchRootMoves E random g) = Some bm ->
  findPieceByPosition E g (from bm) = Some p ->
  enumerateMoves E g (currentPlayer g) <> [] ->
  chooseMove E g random = Returned (Some (mkMove p (from bm) (to bm))).
Proof.
  intros Hbest Hfind Hne. unfold chooseMove, determineBestMove.
  destruct (enumerateMoves E g (currentPlayer g)) as [| m ms] eqn:Hmoves;
    [contradiction |].
  rewrite Hbest, Hfind. reflexivity.
Qed.

Lemma searchRootMoves_nil g random :
  enumerateMoves E g (currentPlayer g) = [] ->
  bestMove (searchRootMoves E random g) = None.
Proof.
  intros Hnil. unfold searchRootMoves. now rewrite Hnil.
Qed.

(** C6 (amended).  When a best move has been determined and no piece of
    the original state is found at its origin, [chooseMove] does not
    return [null]: it returns the element of the root move list indexed
    by the next draw of [Math.random]. *)
Theorem chooseMove_unresolved_falls_back_to_random
        g random (bm : Move) (n : nat) :
  determineBestMove E random g = (Some bm, n) ->
  findPieceByPosition E g (from bm) = None ->
  (0 <= random n)%Q -> (random n < 1)%Q ->
  let possibleAIMoves := enumerateMoves E g (currentPlayer g) in
  exists fallback,
    arrayGet possibleAIMoves
             (randomIndex (random n) (length possibleAIMoves))
    = Some fallback /\
    In fallback possibleAIMoves /\
    chooseMove E g random = Returned (Some fallback).
Proof.
  intros Hbest Hfind Hlo Hhi possibleAIMoves.
  assert (Hne : possibleAIMoves <> []).
  { intros Hnil. unfold determineBestMove in Hbest.
    rewrite (searchRootMoves_nil g random Hnil) in Hbest.
    fold possibleAIMoves in Hbest. rewrite Hnil in Hbest.
    unfold arrayGet in Hbest.
    destruct (_ <? 0); [discriminate |].
    destruct (Z.to_nat _); discriminate. }
  destruct (arrayGet_randomIndex possibleAIMoves (random n) Hne Hlo Hhi)
    as [fallback Hget].
  exists fallback. split; [exact Hget |].
  split; [exact (arrayGet_In _ _ _ Hget) |].
  unfold chooseMove. fold possibleAIMoves.
  destruct possibleAIMoves as [| m ms] eqn:Hmoves; [contradiction |].
  rewrite Hbest, Hfind, Hget. reflexivity.
Qed.

(** C7 (amended).  With the tie-break stubbed to always replace or to
    never replace, two runs leave the search loop with the same best
    move, and return the same move when there is no root move or when
    that best move exists and its piece is found again in the original
    state, that is, when no random fallback is taken; so do two runs
    that draw the same values. *)
Theorem chooseMove_deterministic_without_fallback
        g random1 random2 (b : bool) :
  TieBreakStubbed b random1 -> TieBreakStubbed b random2 ->
  bestMove (searchRootMoves E random1 g)
  = bestMove (searchRootMoves E random2 g) /\
  (enumerateMoves E g (currentPlayer g) = [] \/
   (exists (bm : Move) (p : Piece),
       bestMove (searchRootMoves E random1 g) = Some bm /\
       findPieceByPosition E g (from bm) = Some p) ->
   chooseMove E g random1 = chooseMove E g random2) /\
  ((forall i, random1 i = random2 i) ->
   chooseMove E g random1 = chooseMove E g random2).
Proof.
  intros H1 H2.
  assert (Hloop : bestMove (searchRootMoves E random1 g)
                  = bestMove (searchRootMoves E random2 g)).
  { unfold searchRootMoves. now apply rootLoop_stubbed with (b := b). }
  split; [exact Hloop |]. split.
  - intros [Hnil | (bm & p & Hbest & Hfind)].
    + unfold chooseMove. now rewrite Hnil.
    + destruct (enumerateMoves E g (currentPlayer g)) as [| m ms] eqn:Hmoves.
      * rewrite searchRootMoves_nil in Hbest by exact Hmoves. discriminate.
      * rewrite (chooseMove_resolved g random1 bm p), (chooseMove_resolved g random2 bm p);
          try assumption; try congruence.
  - intros Hext.
    unfold chooseMove, determineBestMove, searchRootMoves.
    rewrite (rootLoop_ext random1 random2) by exact Hext.
    destruct (enumerateMoves E g (currentPlayer g)) as [| m ms]; [reflexivity |].
    destruct (bestMove (rootLoop E random2 _ _ _ _));
      cbv beta iota; rewrite ?Hext; reflexivity.
Qed.

End SelectionFacts.

(** ** The store: simulations write to fresh objects only *)

Section HeapFacts.

Context {Square Hidden : Type} (E : @RulesEngine Square Hidden).

Implicit Types (s ext : list (@Game Square Hidden)) (g child : @Game Square Hidden)
         (r : nat) (depth : Z) (isMax : bool) (ai : Color).

Lemma query_lookup {A : Type} s r g (f : Game -> A) :
  s !! r = Some g -> query r f s = Some (f g, s).
Proof. intros H. unfold query. now rewrite H. Qed.

Lemma lookup_new s g : (s ++ [g]) !! length s = Some g.
Proof. rewrite lookup_app_r by lia. now rewrite Nat.sub_diag. Qed.

Lemma query_new {A : Type} s g (f : Game -> A) :
  query (length s) f (s ++ [g]) = Some (f g, s ++ [g]).
Proof. apply query_lookup, lookup_new. Qed.

Lemma command_new s g (f : Game -> Game) :
  command (length s) f (s ++ [g]) = Some (tt, s ++ [f g]).
Proof.
  unfold command. rewrite lookup_new.
  rewrite insert_app_r_alt by lia. now rewrite Nat.sub_diag.
Qed.

Lemma lookup_extend s ext r g :
  s !! r = Some g -> (s ++ ext) !! r = Some g.
Proof. apply lookup_app_l_Some. Qed.

Ltac heap_step :=
  unfold bind, ret;
  repeat (rewrite query_new || rewrite command_new).

(** The promotion step rewrites the fresh object in place. *)
Lemma promoteToQueen_h_new s g :
  promoteToQueen_h E (length s) (s ++ [g])
  = Some (tt, s ++ [promoteToQueen E g]).
Proof.
  unfold promoteToQueen_h, promoteToQueen. heap_step.
  destruct (needsPromotion _); heap_step; reflexivity.
Qed.

(** A simulation allocates one object, leaves every other object as it
    was, and yields the child that [simulate] computes. *)
Lemma simulate_h_spec s r g (player : Color) (move : Move) :
  s !! r = Some g ->
  exists c,
    simulate_h E r player move s
    = Some (match simulate E g player move with
            | Some _ => Some (length s)
            | None => None
            end, s ++ [c]) /\
    (forall child, simulate E g player move = Some child -> c = child).
Proof.
  intros Hr. unfold simulate_h, simulate.
  unfold bind at 1. rewrite (query_lookup s r g) by exact Hr.
  unfold bind at 1. unfold construct.
  heap_step.
  destruct (findPieceByPosition E (newGame E (export E g)) (from move))
    as [p |]; [| eexists; split; [reflexivity | discriminate]].
  heap_step.
  match goal with
  | |- context [findPieceByPosition E ?sim (to move)] =>
      destruct (findPieceByPosition E sim (to move)) as [t |]
  end.
  - destruct (negb (Color_eqb (color t) (color p))); heap_step.
    + rewrite promoteToQueen_h_new. heap_step.
      eexists; split; [reflexivity |]. now intros child [= <-].
    + eexists; split; [reflexivity | discriminate].
  - heap_step. rewrite promoteToQueen_h_new. heap_step.
    eexists; split; [reflexivity |]. now intros child [= <-].
Qed.

Lemma simulateRoot_h_spec s r g (ai : Color) (move : Move) :
  s !! r = Some g ->
  exists c,
    simulateRoot_h E r ai move s
    = Some (match simulateRoot E g ai move with
            | Some _ => Some (length s)
            | None => None
            end, s ++ [c]) /\
    (forall child, simulateRoot E g ai move = Some child -> c = child).
Proof.
  intros Hr. unfold simulateRoot_h, simulateRoot.
  unfold bind at 1. rewrite (query_lookup s r g) by exact Hr.
  unfold bind at 1. unfold construct.
  heap_step.
  destruct (findPieceByPosition E (newGame E (export E g)) (from move))
    as [p |]; [| eexists; split; [reflexivity | discriminate]].
  heap_step.
  match goal with
  | |- context [findPieceByPosition E ?sim (to move)] =>
      destruct (findPieceByPosition E sim (to move)) as [t |]
  end.
  - destruct (negb (Color_eqb (color t) (color p))); heap_step.
    + destruct (canTakeWithSelected E _ t); heap_step.
      * rewrite promoteToQueen_h_new. heap_step.
        eexists; split; [reflexivity |]. now intros child [= <-].
      * eexists; split; [reflexivity | discriminate].
    + eexists; split; [reflexivity | discriminate].
  - heap_step. destruct (canMoveSelected E _ (to move)); heap_step.
    + rewrite promoteToQueen_h_new. heap_step.
      eexists; split; [reflexivity |]. now intros child [= <-].
    + eexists; split; [reflexivity | discriminate].
Qed.

(** The loop of [minimax] over the store: it returns what [searchLoop]
    returns and only appends to the store. *)
Lemma searchLoop_h_spec (recur : Game -> option Number)
      (recur_h : nat -> Heap Number) combine :
  (forall s c child v,
      s !! c = Some child -> recur child = Some v ->
      exists ext, recur_h c s = Some (v, s ++ ext)) ->
  forall (legalMoves : list Move) s r g (player : Color) (acc v : Number),
    s !! r = Some g ->
    searchLoop E recur combine g player legalMoves acc = Some v ->
    exists ext,
      searchLoop_h E recur_h combine r player legalMoves acc s
      = Some (v, s ++ ext).
Proof.
  intros Hrec.
  induction legalMoves as [| move rest IH]; intros s r g player acc v Hr Hv;
    simpl in Hv |- *.
  - injection Hv as <-. exists []. unfold ret. now rewrite app_nil_r.
  - destruct (simulate_h_spec s r g player move Hr) as (c & Hsim & Hc).
    unfold bind at 1. rewrite Hsim.
    assert (Hr' : (s ++ [c]) !! r = Some g) by now apply lookup_extend.
    destruct (simulate E g player move) as [child |].
    + rewrite (Hc child eq_refl) in *.
      destruct (recur child) as [score |] eqn:Hscore; [| discriminate].
      destruct (Hrec (s ++ [child]) (length s) child score
                     (lookup_new s child) Hscore) as (ext1 & Hcall).
      unfold bind at 1. rewrite Hcall.
      destruct (IH ((s ++ [child]) ++ ext1) r g player _ v
                   (lookup_extend _ ext1 r g Hr') Hv) as (ext2 & Hrest).
      exists ([child] ++ ext1 ++ ext2).
      rewrite Hrest. now rewrite <- !app_assoc.
    + destruct (IH (s ++ [c]) r g player acc v Hr' Hv) as (ext2 & Hrest).
      exists ([c] ++ ext2). rewrite Hrest. now rewrite <- app_assoc.
Qed.

(** [minimax] over the store returns what [minimax_fuel] returns and
    only appends to the store: the object it is called on and all
    objects that existed before the call keep their state. *)
Lemma minimax_h_spec (fuel : nat) s r g depth isMax ai (v : Number) :
  s !! r = Some g ->
  minimax_fuel E fuel g depth isMax ai = Some v ->
  exists ext, minimax_h E fuel r depth isMax ai s = Some (v, s ++ ext).
Proof.
  revert s r g depth isMax v.
  induction fuel as [| fuel IH]; intros s r g depth isMax v Hr Hv;
    [discriminate |].
  cbn [minimax_fuel minimax_h] in Hv |- *. unfold minimax_body in Hv.
  unfold bind at 1. rewrite (query_lookup s r g) by exact Hr.
  destruct ((depth =? 0) || isFinished E g).
  - exists []. rewrite app_nil_r.
    unfold bind. rewrite (query_lookup s r g) by exact Hr.
    destruct (winner g) as [w |].
    + destruct (Color_eqb w ai); injection Hv as <-; reflexivity.
    + rewrite (query_lookup s r g) by exact Hr. now injection Hv as <-.
  - cbv zeta in Hv |- *.
    unfold bind at 1. rewrite (query_lookup s r g) by exact Hr.
    destruct (enumerateMoves E g (sideToMove isMax ai)) as [| move rest].
    + exists []. rewrite app_nil_r.
      unfold bind. rewrite (query_lookup s r g) by exact Hr.
      destruct (isCheck E g _); injection Hv as <-; reflexivity.
    + destruct isMax;
        eapply searchLoop_h_spec; try exact Hr; try exact Hv;
        intros s' c child v' Hc Hv'; eapply IH; eassumption.
Qed.

Lemma rootLoop_h_spec random (possibleAIMoves : list Move) :
  forall s r g (ai : Color) (sel : Selection),
    s !! r = Some g ->
    exists ext,
      rootLoop_h E random r ai possibleAIMoves sel s
      = Some (rootLoop E random g ai possibleAIMoves sel, s ++ ext).
Proof.
  induction possibleAIMoves as [| move rest IH]; intros s r g ai sel Hr;
    cbn [rootLoop_h rootLoop].
  - exists []. unfold ret. now rewrite app_nil_r.
  - destruct (simulateRoot_h_spec s r g ai move Hr) as (c & Hsim & Hc).
    unfold bind at 1. rewrite Hsim.
    assert (Hr' : (s ++ [c]) !! r = Some g) by now apply lookup_extend.
    destruct (simulateRoot E g ai move) as [gameSim |].
    + rewrite (Hc gameSim eq_refl) in *.
      assert (Hscore :
                minimax_fuel E (S (Z.to_nat (SEARCH_DEPTH - 1))) gameSim
                             (SEARCH_DEPTH - 1) false ai
                = Some (minimax E gameSim (SEARCH_DEPTH - 1) false ai)).
      { apply minimax_fuel_minimax; unfold SEARCH_DEPTH; lia. }
      destruct (minimax_h_spec _ (s ++ [gameSim]) (length s) gameSim _ _ _ _
                               (lookup_new s gameSim) Hscore) as (ext1 & Hcall).
      unfold bind at 1. rewrite Hcall.
      set (score := minimax E gameSim (SEARCH_DEPTH - 1) false ai).
      assert (Hr'' : ((s ++ [gameSim]) ++ ext1) !! r = Some g)
        by now apply lookup_extend.
      assert (Hnext : forall sel',
                 exists ext,
                   rootLoop_h E random r ai rest sel' ((s ++ [gameSim]) ++ ext1)
                   = Some (rootLoop E random g ai rest sel', s ++ ext)).
      { intros sel'. destruct (IH _ r g ai sel' Hr'') as (ext2 & Hrest).
        exists ([gameSim] ++ ext1 ++ ext2).
        rewrite Hrest. now rewrite <- !app_assoc. }
      destruct (Number_gtb score (bestScore sel)); [apply Hnext |].
      destruct (Number_eqb score (bestScore sel)); [| apply Hnext].
      destruct (replaceOnTie _); apply Hnext.
    + destruct (IH (s ++ [c]) r g ai sel Hr') as (ext2 & Hrest).
      exists ([c] ++ ext2). rewrite Hrest. now rewrite <- app_assoc.
Qed.

(** C8.  A complete run of [chooseMove], with every [minimax] call it
    makes, leaves the game object it was given, and every other object
    that existed before the call, in the state it had: the pieces with
    their positions, kinds and colours, the side to move and the
    winner.  All writes go to objects allocated during the run.  The
    result is the one computed by [chooseMove] on game values. *)
Theorem chooseMove_leaves_original_unchanged s r g (random : nat -> Q) :
  s !! r = Some g ->
  exists ext,
    chooseMove_h E r random s = Some (chooseMove E g random, s ++ ext) /\
    (s ++ ext) !! r = Some g /\
    (forall r' g', s !! r' = Some g' -> (s ++ ext) !! r' = Some g').
Proof.
  intros Hr.
  assert (Hframe : forall ext r' g',
             s !! r' = Some g' -> (s ++ ext) !! r' = Some g')
    by (intros; now apply lookup_extend).
  enough (exists ext,
             chooseMove_h E r random s = Some (chooseMove E g random, s ++ ext))
    as (ext & Hrun) by (exists ext; auto).
  unfold chooseMove_h, chooseMove, determineBestMove, searchRootMoves.
  unfold bind at 1. rewrite (query_lookup s r g) by exact Hr.
  unfold bind at 1. rewrite (query_lookup s r g) by exact Hr.
  destruct (enumerateMoves E g (currentPlayer g)) as [| m ms] eqn:Hmoves.
  - exists []. unfold ret. now rewrite app_nil_r.
  - destruct (rootLoop_h_spec random (m :: ms) s r g (currentPlayer g)
                (mkSelection None NegInfinity 0) Hr) as (ext & Hloop).
    exists ext. unfold bind at 1. rewrite Hloop.
    set (sel := rootLoop E random g (currentPlayer g) (m :: ms) _).
    assert (Hr' : (s ++ ext) !! r = Some g) by now apply lookup_extend.
    destruct (bestMove sel) as [bm |]; cbv beta iota.
    + unfold bind. rewrite (query_lookup _ r g) by exact Hr'.
      destruct (findPieceByPosition E g (from bm)); unfold ret; [reflexivity |].
      destruct (arrayGet _ _); reflexivity.
    + destruct (arrayGet (m :: ms) (randomIndex (random (drawn sel)) _)) as [bm |].
      * unfold bind. rewrite (query_lookup _ r g) by exact Hr'.
        destruct (findPieceByPosition E g (from bm)); unfold ret; [reflexivity |].
        destruct (arrayGet _ _); reflexivity.
      * unfold bind, ret. destruct (arrayGet _ _); reflexivity.
Qed.

End HeapFacts.

(** ** The properties on concrete positions of one-rank chess *)

Section Examples.

Import LineChess.

(** C4, counterexample.  A finished game without a winner in which
    white is a queen up is not scored 0: [minimax] returns the material
    balance, 900 for white and -900 for black, at any depth. *)
Lemma minimax_drawn_game_scores_material :
  isFinished engine drawnGame = true /\
  winner drawnGame = None /\
  (forall (depth : Z) (isMax : bool),
      minimax engine drawnGame depth isMax white = Finite 900 /\
      minimax engine drawnGame depth isMax black = Finite (-900)) /\
  minimax engine drawnGame 2 true white <> Finite 0.
Proof.
  split; [reflexivity |]. split; [reflexivity |].
  assert (H : forall (depth : Z) (isMax : bool),
             minimax engine drawnGame depth isMax white = Finite 900 /\
             minimax engine drawnGame depth isMax black = Finite (-900)).
  { intros depth isMax.
    rewrite !(minimax_finished_without_winner engine drawnGame) by reflexivity.
    split; reflexivity. }
  split; [exact H |].
  rewrite (proj1 (H 2 true)). discriminate.
Qed.

Lemma minimax_drawn_game_static_evaluation_witness :
  minimax engine drawnGame 2 true white = Finite (evaluateBoard drawnGame white).
Proof.
  refine (proj1 (minimax_drawn_game_static_evaluation
                   engine drawnGame 2 true white _ _)).
  - reflexivity.
  - reflexivity.
Defined.

(** The index computed for the draw 0.3333333333333333 and three moves:
    the product is half-way between two doubles and rounds to 1. *)
Example randomIndex_rounds_the_product :
  randomIndex (6004799503160661 # 18014398509481984) 3 = 1 /\
  Qfloor ((6004799503160661 # 18014398509481984) * 3) = 0.
Proof. split; vm_compute; reflexivity. Qed.

Lemma minimax_internal_node_witness :
  minimax engine cornered 2 true white
  = extremum true
      (List.map (fun child => minimax engine child 1 false white)
                (children engine cornered white
                          (enumerateMoves engine cornered white))).
Proof.
  refine (proj1 (minimax_internal_node engine cornered 2 true white _ _ _)).
  - reflexivity.
  - reflexivity.
  - vm_compute. discriminate.
Defined.

Lemma minimax_decided_outcome_witness :
  minimax engine kingTaken 2 false white = Infinity.
Proof.
  refine (proj1 (minimax_decided_outcome engine kingTaken 2 false white white
                                         _ _ _) eq_refl).
  - lia.
  - right. reflexivity.
  - reflexivity.
Defined.

Lemma minimax_no_legal_moves_witness :
  minimax engine stalemate 2 false white = Finite 0.
Proof.
  refine (minimax_no_legal_moves engine stalemate 2 false white _ _ _).
  - reflexivity.
  - reflexivity.
  - reflexivity.
Defined.

Lemma minimax_terminates_witness :
  exists v, forall fuel, (2 < fuel)%nat ->
                         minimax_fuel engine fuel cornered 2 true white = Some v.
Proof.
  refine (proj1 (minimax_terminates engine cornered 2 true white _)).
  lia.
Defined.

Lemma minimax_all_branches_skipped_witness :
  minimax blindEngine cornered 2 true white = NegInfinity.
Proof.
  refine (minimax_all_branches_skipped blindEngine cornered 2 true white
                                       _ _ _ _).
  - reflexivity.
  - reflexivity.
  - vm_compute. discriminate.
  - intros move _. reflexivity.
Defined.

(** C6, counterexample.  With a position lookup that finds nothing, a
    best move is determined (by the random pick after the loop), its
    piece is not found in the original state, and [chooseMove] returns
    a move, not [null]. *)
Lemma chooseMove_unresolved_returns_a_move :
  determineBestMove blindEngine (always (3 # 4)) cornered
  = (Some (kingTo 2), 1%nat) /\
  findPieceByPosition blindEngine cornered (from (kingTo 2)) = None /\
  chooseMove blindEngine cornered (always (3 # 4)) = Returned (Some (kingTo 2)) /\
  chooseMove blindEngine cornered (always (3 # 4)) <> Returned None.
Proof.
  split; [reflexivity |]. split; [reflexivity |].
  split; [reflexivity |]. vm_compute. discriminate.
Qed.

Lemma chooseMove_unresolved_falls_back_to_random_witness :
  exists fallback,
    arrayGet (enumerateMoves blindEngine cornered white)
             (randomIndex (3 # 4)
                          (length (enumerateMoves blindEngine cornered white)))
    = Some fallback /\
    In fallback (enumerateMoves blindEngine cornered white) /\
    chooseMove blindEngine cornered (always (3 # 4)) = Returned (Some fallback).
Proof.
  refine (chooseMove_unresolved_falls_back_to_random
            blindEngine cornered (always (3 # 4)) (kingTo 2) 1 _ _ _ _).
  - reflexivity.
  - reflexivity.
  - vm_compute. discriminate.
  - reflexivity.
Defined.

(** C7, counterexample.  Both stubs never replace on a tie, yet the two
    runs return different moves: every root move scores [-Infinity], the
    loop selects none, and the move is picked by the value drawn. *)
Lemma chooseMove_stubbed_runs_differ :
  TieBreakStubbed false (always (3 # 8)) /\
  TieBreakStubbed false (always (3 # 4)) /\
  chooseMove engine cornered (always (3 # 8)) = Returned (Some (kingTo 0)) /\
  chooseMove engine cornered (always (3 # 4)) = Returned (Some (kingTo 2)) /\
  chooseMove engine cornered (always (3 # 8))
  <> chooseMove engine cornered (always (3 # 4)).
Proof.
  split; [intros i; reflexivity |]. split; [intros i; reflexivity |].
  split; [reflexivity |]. split; [reflexivity |].
  vm_compute. discriminate.
Qed.

Lemma chooseMove_deterministic_without_fallback_witness :
  chooseMove engine cornered (always (1 # 8))
  = chooseMove engine cornered (always (1 # 4)).
Proof.
  refine (proj1 (proj2 (chooseMove_deterministic_without_fallback
                          engine cornered (always (1 # 8)) (always (1 # 4)) true
                          _ _)) _).
  - intros i. reflexivity.
  - intros i. reflexivity.
  - right. exists (kingTo 2), (mkPiece "king" white 1).
    split; reflexivity.
Defined.

Lemma chooseMove_leaves_original_unchanged_witness :
  exists ext,
    chooseMove_h engine 0%nat (always (3 # 4)) [cornered]
    = Some (chooseMove engine cornered (always (3 # 4)), [cornered] ++ ext) /\
    ([cornered] ++ ext) !! 0%nat = Some cornered /\
    (forall r' g', [cornered] !! r' = Some g' ->
                   ([cornered] ++ ext) !! r' = Some g').
Proof.
  refine (chooseMove_leaves_original_unchanged
            engine [cornered] 0%nat cornered (always (3 # 4)) _).
  reflexivity.
Defined.

End Examples.

(** * Further properties of the code *)

(** ** The evaluator on changing boards *)

Section EvaluationFacts.

Context {Square Hidden : Type}.

Implicit Types (ps : list (@Piece Square)) (g : @Game Square Hidden).

Lemma evaluateBoard_as_material g (c : Color) :
  evaluateBoard g c = material (pieces g) c - material (pieces g) (opponentOf c).
Proof. unfold evaluateBoard. rewrite evaluateBoard_fold. lia. Qed.

Lemma material_app ps1 ps2 (c : Color) :
  material (ps1 ++ ps2) c = material ps1 c + material ps2 c.
Proof.
  unfold material. induction ps1 as [| p ps1 IH]; simpl; [reflexivity |].
  destruct (Color_eqb (color p) c); simpl; lia.
Qed.

Lemma material_cons (p : Piece) ps (c : Color) :
  material (p :: ps) c
  = (if Color_eqb (color p) c then getPieceValue (type p) else 0) + material ps c.
Proof.
  unfold material. simpl. destruct (Color_eqb (color p) c); reflexivity.
Qed.

Lemma material_Permutation ps1 ps2 (c : Color) :
  Permutation ps1 ps2 -> material ps1 c = material ps2 c.
Proof.
  induction 1 as [| p l l' _ IH | p q l | l l' l'' _ IH1 _ IH2].
  - reflexivity.
  - rewrite !material_cons, IH. reflexivity.
  - rewrite !material_cons. lia.
  - congruence.
Qed.

Lemma getPieceValue_range (kind : string) : 0 <= getPieceValue kind <= 20000.
Proof.
  unfold getPieceValue.
  repeat match goal with
         | |- context [String.eqb kind ?k] => destruct (String.eqb kind k); [lia |]
         end.
  lia.
Qed.

Lemma material_bounds ps (c : Color) :
  0 <= material ps c /\
  0 <= material ps (opponentOf c) /\
  material ps c + material ps (opponentOf c) <= 20000 * Z.of_nat (length ps).
Proof.
  induction ps as [| p ps IH].
  - unfold material; simpl. lia.
  - rewrite !material_cons, Color_eqb_opponentOf.
    pose proof (getPieceValue_range (type p)).
    change (length (p :: ps)) with (S (length ps)).
    destruct (Color_eqb (color p) c); simpl negb; cbv iota; lia.
Qed.

(** X1.  The evaluation does not depend on the order of the pieces in
    the [pieces] array. *)
Theorem evaluateBoard_order_independent g1 g2 (c : Color) :
  Permutation (pieces g1) (pieces g2) ->
  evaluateBoard g1 c = evaluateBoard g2 c.
Proof.
  intros Hperm. rewrite !evaluateBoard_as_material.
  now rewrite !(material_Permutation _ _ _ Hperm).
Qed.

(** X2.  Taking a piece off the board changes the evaluation by exactly
    the value of that piece: the side that loses it goes down by the
    value, the other side goes up by it. *)
Theorem evaluateBoard_piece_removed g g' (p : Piece) ps1 ps2 (c : Color) :
  pieces g = ps1 ++ p :: ps2 ->
  pieces g' = ps1 ++ ps2 ->
  evaluateBoard g' c
  = if Color_eqb (color p) c
    then evaluateBoard g c - getPieceValue (type p)
    else evaluateBoard g c + getPieceValue (type p).
Proof.
  intros Hg Hg'. rewrite !evaluateBoard_as_material, Hg, Hg'.
  rewrite !material_app, !material_cons, Color_eqb_opponentOf.
  destruct (Color_eqb (color p) c); simpl negb; cbv iota; lia.
Qed.

(** X3.  The evaluation is bounded by 20000 per piece on the board, so
    the running sum stays an exactly representable integer. *)
Theorem evaluateBoard_bounded g (c : Color) :
  - (20000 * Z.of_nat (length (pieces g))) <= evaluateBoard g c
  <= 20000 * Z.of_nat (length (pieces g)).
Proof.
  rewrite evaluateBoard_as_material.
  pose proof (material_bounds (pieces g) c). lia.
Qed.

End EvaluationFacts.

(** ** The move enumeration *)

Section EnumerationFacts.

Context {Square Hidden : Type} (E : @RulesEngine Square Hidden).

(** X4.  The enumerated moves are exactly the pairs of a piece of the
    given colour on the board and a square that [getMoves] returns for
    it, with the origin set to the position of the piece. *)
Theorem enumerateMoves_spec (g : Game) (c : Color) (move : Move) :
  In move (enumerateMoves E g c) <->
  In (piece move) (pieces g) /\
  color (piece move) = c /\
  from move = position (piece move) /\
  In (to move) (getMoves E g (piece move) (generateCurrentMap E g)).
Proof.
  unfold enumerateMoves. rewrite in_flat_map. split.
  - intros (p & Hp & Hmove).
    apply filter_In in Hp as [Hin Hcol]. apply Color_eqb_eq in Hcol.
    apply in_map_iff in Hmove as (sq & <- & Hsq). simpl. auto.
  - intros (Hin & Hcol & Hfrom & Hto).
    exists (piece move). split.
    + apply filter_In. split; [exact Hin | now apply Color_eqb_eq].
    + apply in_map_iff. exists (to move). split; [| exact Hto].
      destruct move as [p f t]; simpl in *. now subst.
Qed.

End EnumerationFacts.

(** ** More on the search *)

Lemma Math_max_swap (a b c : Number) :
  Math_max (Math_max a b) c = Math_max (Math_max a c) b.
Proof. destruct a, b, c; simpl; try reflexivity; f_equal; lia. Qed.

Lemma Math_min_swap (a b c : Number) :
  Math_min (Math_min a b) c = Math_min (Math_min a c) b.
Proof. destruct a, b, c; simpl; try reflexivity; f_equal; lia. Qed.

Lemma Number_opp_involutive (a : Number) : Number_opp (Number_opp a) = a.
Proof. destruct a; simpl; try reflexivity. f_equal. lia. Qed.

Lemma Math_max_opp (a b : Number) :
  Math_max a b = Number_opp (Math_min (Number_opp a) (Number_opp b)).
Proof. destruct a, b; simpl; try reflexivity; f_equal; lia. Qed.

Lemma Math_min_opp (a b : Number) :
  Math_min a b = Number_opp (Math_max (Number_opp a) (Number_opp b)).
Proof. destruct a, b; simpl; try reflexivity; f_equal; lia. Qed.

Lemma fold_max_opp {A : Type} (F G : A -> Number) (l : list A) (acc : Number) :
  (forall x, F x = Number_opp (G x)) ->
  fold_left Math_max (List.map F l) acc
  = Number_opp (fold_left Math_min (List.map G l) (Number_opp acc)).
Proof.
  intros HFG. revert acc.
  induction l as [| x l IH]; intros acc; simpl.
  - now rewrite Number_opp_involutive.
  - rewrite IH. f_equal. f_equal.
    rewrite Math_max_opp, HFG, !Number_opp_involutive. reflexivity.
Qed.

Lemma fold_min_opp {A : Type} (F G : A -> Number) (l : list A) (acc : Number) :
  (forall x, F x = Number_opp (G x)) ->
  fold_left Math_min (List.map F l) acc
  = Number_opp (fold_left Math_max (List.map G l) (Number_opp acc)).
Proof.
  intros HFG. revert acc.
  induction l as [| x l IH]; intros acc; simpl.
  - now rewrite Number_opp_involutive.
  - rewrite IH. f_equal. f_equal.
    rewrite Math_min_opp, HFG, !Number_opp_involutive. reflexivity.
Qed.

Section MoreSearchFacts.

Context {Square Hidden : Type} (E : @RulesEngine Square Hidden).

Implicit Types (g child : @Game Square Hidden) (depth : Z)
         (isMax : bool) (ai : Color).

Lemma minimax_depth_0 g isMax ai :
  minimax E g 0 isMax ai = leafScore g ai.
Proof. now rewrite minimax_terminal. Qed.

(** X5.  With one ply left, an inner node is worth the best static score
    among its children: the maximum for the AI, the minimum for the
    opponent, of [Infinity] / [-Infinity] for a child with a winner and
    of the material evaluation otherwise. *)
Theorem minimax_depth_1_static g isMax ai :
  isFinished E g = false ->
  enumerateMoves E g (sideToMove isMax ai) <> [] ->
  minimax E g 1 isMax ai
  = extremum isMax
      (List.map (fun child => leafScore child ai)
                (children E g (sideToMove isMax ai)
                          (enumerateMoves E g (sideToMove isMax ai)))).
Proof.
  intros Hfin Hmoves. rewrite minimax_inner by (try lia; assumption).
  destruct (enumerateMoves E g _) as [| move rest] eqn:Hl; [contradiction |].
  f_equal. apply map_ext. intros child. apply minimax_depth_0.
Qed.

(** A loop whose recursive calls do not return does not return, unless
    no move is simulated. *)
Lemma searchLoop_returns (recur : Game -> option Number) combine g
      (player : Color) (legalMoves : list Move) (acc v : Number) :
  searchLoop E recur combine g player legalMoves acc = Some v ->
  forall move child,
    In move legalMoves -> simulate E g player move = Some child ->
    exists score, recur child = Some score.
Proof.
  revert acc. induction legalMoves as [| m rest IH]; intros acc Hv move child;
    [intros [] |].
  simpl in Hv. intros [<- | Hin] Hsim.
  - rewrite Hsim in Hv. destruct (recur child) as [score |]; [eauto | discriminate].
  - destruct (simulate E g player m) as [c |]; [| eauto].
    destruct (recur c); [eauto | discriminate].
Qed.

(** X6.  The test [depth === 0] never holds below 0.  For negative
    depths: the result does not depend on the depth; a finished game
    returns its leaf score and an unfinished node without moves its
    checkmate or stalemate value; and an unfinished node returns only
    after the recursive call, made at depth - 1, has returned on every
    child, so the depth never stops the recursion. *)
Theorem minimax_negative_depth (fuel : nat) g (d1 d2 : Z) isMax ai :
  d1 < 0 -> d2 < 0 ->
  minimax_fuel E fuel g d1 isMax ai = minimax_fuel E fuel g d2 isMax ai /\
  (isFinished E g = true ->
   minimax_fuel E (S fuel) g d1 isMax ai = Some (leafScore g ai)) /\
  (isFinished E g = false ->
   enumerateMoves E g (sideToMove isMax ai) = [] ->
   minimax_fuel E (S fuel) g d1 isMax ai
   = Some (if isCheck E g (sideToMove isMax ai)
           then (if isMax then NegInfinity else Infinity)
           else Finite 0)) /\
  (isFinished E g = false ->
   forall v, minimax_fuel E (S fuel) g d1 isMax ai = Some v ->
   forall move child,
     In move (enumerateMoves E g (sideToMove isMax ai)) ->
     simulate E g (sideToMove isMax ai) move = Some child ->
     exists score,
       minimax_fuel E fuel child (d1 - 1) (negb isMax) ai = Some score).
Proof.
  intros H1 H2. split; [| split; [| split]].
  - revert g d1 d2 isMax H1 H2.
    induction fuel as [| fuel IH]; intros g d1 d2 isMax H1 H2; [reflexivity |].
    cbn [minimax_fuel]. unfold minimax_body.
    destruct (Z.eqb_spec d1 0) as [? | _]; [lia |].
    destruct (Z.eqb_spec d2 0) as [? | _]; [lia |].
    destruct (false || isFinished E g); [reflexivity |].
    cbv zeta.
    destruct (enumerateMoves E g _) as [| move rest]; [reflexivity |].
    destruct isMax; apply searchLoop_ext; intros child; apply IH; lia.
  - intros Hfin. cbn [minimax_fuel].
    apply minimax_body_terminal. rewrite Hfin. apply orb_true_r.
  - intros Hfin Hmoves. cbn [minimax_fuel]. unfold minimax_body.
    destruct (Z.eqb_spec d1 0) as [? | _]; [lia |].
    rewrite Hfin. cbv zeta. cbn [orb]. rewrite Hmoves.
    destruct (isCheck E g _); reflexivity.
  - intros Hfin v Hv move child Hin Hsim.
    cbn [minimax_fuel] in Hv. unfold minimax_body in Hv.
    destruct (Z.eqb_spec d1 0) as [? | _]; [lia |].
    rewrite Hfin in Hv. cbv zeta in Hv. cbn [orb] in Hv.
    destruct (enumerateMoves E g (sideToMove isMax ai)) as [| m rest] eqn:Hl;
      [contradiction |].
    destruct isMax;
      exact (searchLoop_returns _ _ g _ _ _ v Hv move child Hin Hsim).
Qed.

(** X7.  The value that a loop of [minimax] returns does not depend on
    the order of [legalMoves], whether or not every recursive call
    returns. *)
Theorem searchLoop_order_independent
        (recur : Game -> option Number) g (player : Color)
        (legalMoves legalMoves' : list Move) :
  Permutation legalMoves legalMoves' ->
  (forall acc, searchLoop E recur Math_max g player legalMoves acc
               = searchLoop E recur Math_max g player legalMoves' acc) /\
  (forall acc, searchLoop E recur Math_min g player legalMoves acc
               = searchLoop E recur Math_min g player legalMoves' acc).
Proof.
  induction 1 as [| x l l' _ [IHmax IHmin] | x y l
                 | l l' l'' _ [IH1max IH1min] _ [IH2max IH2min]].
  - split; reflexivity.
  - split; intros acc; simpl;
      destruct (simulate E g player x) as [c |]; auto;
      destruct (recur c); auto.
  - split; intros acc; simpl;
      destruct (simulate E g player x) as [cx |];
      destruct (simulate E g player y) as [cy |]; try reflexivity;
      destruct (recur cx) as [vx |]; destruct (recur cy) as [vy |];
      try reflexivity.
    + now rewrite Math_max_swap.
    + now rewrite Math_min_swap.
  - split; intros acc; [rewrite IH1max | rewrite IH1min]; auto.
Qed.

End MoreSearchFacts.

Section SearchStructure.

Context {Square Hidden : Type} (E : @RulesEngine Square Hidden).

Implicit Types (g child : @Game Square Hidden) (depth : Z)
         (isMax : bool) (ai : Color).

Lemma sideToMove_flip isMax ai :
  sideToMove (negb isMax) (opponentOf ai) = sideToMove isMax ai.
Proof. destruct isMax; simpl; [apply opponentOf_involutive | reflexivity]. Qed.

Lemma leafScore_opp g ai :
  leafScore g ai = Number_opp (leafScore g (opponentOf ai)).
Proof.
  unfold leafScore. destruct (winner g) as [w |].
  - rewrite Color_eqb_opponentOf. now destruct (Color_eqb w ai).
  - simpl. f_equal. rewrite !evaluateBoard_as_material, opponentOf_involutive.
    lia.
Qed.

Lemma extremum_opp {A : Type} (F G : A -> Number) (l : list A) isMax :
  (forall x, F x = Number_opp (G x)) ->
  extremum isMax (List.map F l)
  = Number_opp (extremum (negb isMax) (List.map G l)).
Proof.
  intros HFG. unfold extremum. destruct isMax; simpl.
  - now apply fold_max_opp.
  - now apply fold_min_opp.
Qed.

(** X8.  The search is zero-sum: the value of a node for the AI, with
    one side to move, is the negation of its value when the roles are
    swapped, that is, for the other colour as the AI with the flag
    flipped, so that the same side moves. *)
Theorem minimax_zero_sum g depth isMax ai :
  0 <= depth ->
  minimax E g depth isMax ai
  = Number_opp (minimax E g depth (negb isMax) (opponentOf ai)).
Proof.
  intros Hdepth.
  remember (Z.to_nat depth) as n eqn:Hn.
  revert g depth isMax Hdepth Hn.
  induction n as [| n IH]; intros g depth isMax Hdepth Hn.
  - assert (depth = 0) as -> by lia.
    rewrite !minimax_depth_0. apply leafScore_opp.
  - destruct (isFinished E g) eqn:Hfin.
    + rewrite !minimax_terminal by (rewrite Hfin; apply orb_true_r).
      apply leafScore_opp.
    + rewrite !minimax_inner by (try lia; assumption).
      rewrite sideToMove_flip.
      destruct (enumerateMoves E g (sideToMove isMax ai)) as [| move rest].
      * destruct (isCheck E g _); [now destruct isMax | simpl; f_equal].
      * apply extremum_opp. intros child. apply IH; lia.
Qed.

(** X9.  The simulation at the root is the simulation inside [minimax]
    with two more guards: when it yields a child, the inner simulation
    of the same move yields the same child. *)
Theorem simulateRoot_refines_simulate g (aiColor : Color) (move : Move) child :
  simulateRoot E g aiColor move = Some child ->
  simulate E g aiColor move = Some child.
Proof.
  unfold simulateRoot, simulate.
  destruct (findPieceByPosition E (newGame E (export E g)) (from move))
    as [p |]; [| discriminate].
  cbv zeta.
  match goal with
  | |- context [findPieceByPosition E ?sim (to move)] =>
      destruct (findPieceByPosition E sim (to move)) as [t |]
  end.
  - destruct (negb (Color_eqb (color t) (color p))); [| discriminate].
    destruct (canTakeWithSelected E _ t); [tauto | discriminate].
  - destruct (canMoveSelected E _ (to move)); [tauto | discriminate].
Qed.

(** X10.  A call of [minimax] on a game object returns the value of
    [minimax] on its state and leaves that object, and every object that
    existed before the call, in the state it had. *)
Theorem minimax_leaves_store_unchanged
        (s : list (@Game Square Hidden)) (r : nat) g depth isMax ai :
  s !! r = Some g ->
  0 <= depth ->
  exists ext,
    minimax_h E (S (Z.to_nat depth)) r depth isMax ai s
    = Some (minimax E g depth isMax ai, s ++ ext) /\
    (forall r' g', s !! r' = Some g' -> (s ++ ext) !! r' = Some g').
Proof.
  intros Hr Hdepth.
  destruct (minimax_h_spec E (S (Z.to_nat depth)) s r g depth isMax ai
              (minimax E g depth isMax ai) Hr) as (ext & Hrun).
  { apply minimax_fuel_minimax; lia. }
  exists ext. split; [exact Hrun |].
  intros r' g' Hr'. now apply lookup_extend.
Qed.

End SearchStructure.

(** ** More on the move selection *)

Lemma Number_gtb_true_le (a b : Number) :
  Number_gtb a b = true -> Number_le b a.
Proof.
  unfold Number_le. destruct a, b; simpl; try congruence.
  intros H. apply Z.ltb_lt in H. apply Z.ltb_ge. lia.
Qed.

Lemma Number_eqb_eq (a b : Number) : Number_eqb a b = true -> a = b.
Proof.
  destruct a, b; simpl; try congruence.
  intros H. apply Z.eqb_eq in H. now subst.
Qed.

Lemma Number_gtb_NegInfinity (a : Number) :
  Number_gtb a NegInfinity = false -> a = NegInfinity.
Proof. destruct a; simpl; congruence. Qed.

Lemma Number_le_NegInfinity (a : Number) :
  Number_le a NegInfinity -> a = NegInfinity.
Proof. apply Number_gtb_NegInfinity. Qed.

Section MoreSelectionFacts.

Context {Square Hidden : Type} (E : @RulesEngine Square Hidden).

Implicit Types (g : @Game Square Hidden) (random : nat -> Q)
         (sel : @Selection Square) (ai : Color).

Lemma rootScore_simulated g ai (move : Move) (sim : Game) :
  simulateRoot E g ai move = Some sim ->
  rootScore E g ai move = Some (minimax E sim (SEARCH_DEPTH - 1) false ai).
Proof. intros H. unfold rootScore. now rewrite H. Qed.

Lemma rootScore_faulted g ai (move : Move) :
  simulateRoot E g ai move = None -> rootScore E g ai move = None.
Proof. intros H. unfold rootScore. now rewrite H. Qed.

(** What the loop keeps true: the selected move is a move of the list
    and its score is [bestScore]; [bestScore] only grows and dominates
    the score of every move seen. *)
Lemma rootLoop_invariant random g ai (all moves : list Move) sel :
  (forall m, In m moves -> In m all) ->
  match bestMove sel with
  | Some m => In m all /\ rootScore E g ai m = Some (bestScore sel)
  | None => bestScore sel = NegInfinity
  end ->
  match bestMove (rootLoop E random g ai moves sel) with
  | Some m =>
      In m all /\
      rootScore E g ai m = Some (bestScore (rootLoop E random g ai moves sel))
  | None => bestScore (rootLoop E random g ai moves sel) = NegInfinity
  end /\
  Number_le (bestScore sel) (bestScore (rootLoop E random g ai moves sel)) /\
  (forall mv v, In mv moves -> rootScore E g ai mv = Some v ->
                Number_le v (bestScore (rootLoop E random g ai moves sel))).
Proof.
  revert sel. induction moves as [| move rest IH]; intros sel Hincl Hsel.
  - simpl. split; [exact Hsel |]. split; [apply Number_le_refl |].
    intros mv v [].
  - assert (Hrest : forall m, In m rest -> In m all)
      by (intros m Hm; apply Hincl; now right).
    assert (Hmove : In move all) by (apply Hincl; now left).
    cbn [rootLoop].
    destruct (simulateRoot E g ai move) as [sim |] eqn:Hsim.
    + pose proof (rootScore_simulated g ai move sim Hsim) as Hscore.
      set (s := minimax E sim (SEARCH_DEPTH - 1) false ai) in *.
      assert (Hstep : forall sel',
                 match bestMove sel' with
                 | Some m => In m all /\ rootScore E g ai m = Some (bestScore sel')
                 | None => bestScore sel' = NegInfinity
                 end ->
                 Number_le (bestScore sel) (bestScore sel') ->
                 Number_le s (bestScore sel') ->
                 match bestMove (rootLoop E random g ai rest sel') with
                 | Some m =>
                     In m all /\
                     rootScore E g ai m
                     = Some (bestScore (rootLoop E random g ai rest sel'))
                 | None => bestScore (rootLoop E random g ai rest sel') = NegInfinity
                 end /\
                 Number_le (bestScore sel)
                           (bestScore (rootLoop E random g ai rest sel')) /\
                 (forall mv v, In mv (move :: rest) ->
                               rootScore E g ai mv = Some v ->
                               Number_le v (bestScore (rootLoop E random g ai rest sel')))).
      { intros sel' Hsel' Hle Hs.
        destruct (IH sel' Hrest Hsel') as (Hco & Hmono & Hbound).
        split; [exact Hco |].
        split; [eapply Number_le_trans; eassumption |].
        intros mv v [<- | Hin] Hv.
        - rewrite Hscore in Hv. injection Hv as <-.
          eapply Number_le_trans; eassumption.
        - eapply Hbound; eassumption. }
      destruct (Number_gtb s (bestScore sel)) eqn:Hgt.
      * apply Hstep; simpl.
        -- split; [exact Hmove | exact Hscore].
        -- now apply Number_gtb_true_le.
        -- apply Number_le_refl.
      * destruct (Number_eqb s (bestScore sel)) eqn:Heq.
        -- apply Number_eqb_eq in Heq.
           destruct (replaceOnTie _); apply Hstep; simpl;
             try apply Number_le_refl; try exact Hgt.
           ++ split; [exact Hmove | now rewrite Hscore, Heq].
           ++ exact Hsel.
        -- apply Hstep; [exact Hsel | apply Number_le_refl | exact Hgt].
    + destruct (IH sel Hrest Hsel) as (Hco & Hmono & Hbound).
      split; [exact Hco |]. split; [exact Hmono |].
      intros mv v [<- | Hin] Hv.
      * rewrite (rootScore_faulted g ai move Hsim) in Hv. discriminate.
      * eapply Hbound; eassumption.
Qed.

Lemma searchRootMoves_invariant random g :
  match bestMove (searchRootMoves E random g) with
  | Some m =>
      In m (enumerateMoves E g (currentPlayer g)) /\
      rootScore E g (currentPlayer g) m
      = Some (bestScore (searchRootMoves E random g))
  | None => bestScore (searchRootMoves E random g) = NegInfinity
  end /\
  (forall mv v, In mv (enumerateMoves E g (currentPlayer g)) ->
                rootScore E g (currentPlayer g) mv = Some v ->
                Number_le v (bestScore (searchRootMoves E random g))).
Proof.
  unfold searchRootMoves.
  destruct (rootLoop_invariant random g (currentPlayer g)
              (enumerateMoves E g (currentPlayer g))
              (enumerateMoves E g (currentPlayer g))
              (mkSelection None NegInfinity 0))
    as (Hco & _ & Hbound); auto.
  reflexivity.
Qed.

(** X11.  The move that the loop of [chooseMove] selects is a root move
    whose score is the greatest among the root moves whose simulation
    succeeded; and when the loop selects no move, every such score is
    [-Infinity]. *)
Theorem searchRootMoves_optimal random g :
  (forall bm, bestMove (searchRootMoves E random g) = Some bm ->
              In bm (enumerateMoves E g (currentPlayer g)) /\
              rootScore E g (currentPlayer g) bm
              = Some (bestScore (searchRootMoves E random g))) /\
  (forall mv v, In mv (enumerateMoves E g (currentPlayer g)) ->
                rootScore E g (currentPlayer g) mv = Some v ->
                Number_le v (bestScore (searchRootMoves E random g))) /\
  (bestMove (searchRootMoves E random g) = None ->
   forall mv v, In mv (enumerateMoves E g (currentPlayer g)) ->
                rootScore E g (currentPlayer g) mv = Some v ->
                v = NegInfinity).
Proof.
  destruct (searchRootMoves_invariant random g) as (Hco & Hbound).
  split; [| split].
  - intros bm Hbm. now rewrite Hbm in Hco.
  - exact Hbound.
  - intros Hnone mv v Hin Hv. rewrite Hnone in Hco.
    apply Number_le_NegInfinity. rewrite <- Hco. eapply Hbound; eassumption.
Qed.

(** X12.  A root move whose score is not [-Infinity] and is strictly
    greater than the score of every other root move is the move
    returned, whatever [Math.random] yields, as soon as its piece is
    found in the original state. *)
Theorem chooseMove_strictly_best_move
        random g (mv : Move) (v : Number) (p : Piece) :
  In mv (enumerateMoves E g (currentPlayer g)) ->
  rootScore E g (currentPlayer g) mv = Some v ->
  v <> NegInfinity ->
  (forall mv' v', In mv' (enumerateMoves E g (currentPlayer g)) ->
                  rootScore E g (currentPlayer g) mv' = Some v' ->
                  mv' = mv \/ Number_gtb v v' = true) ->
  findPieceByPosition E g (from mv) = Some p ->
  chooseMove E g random = Returned (Some (mkMove p (from mv) (to mv))).
Proof.
  intros Hin Hv Hfinite Hbest Hfind.
  destruct (searchRootMoves_invariant random g) as (Hco & Hbound).
  pose proof (Hbound mv v Hin Hv) as Hle.
  apply chooseMove_resolved;
    [| exact Hfind | intros Hnil; rewrite Hnil in Hin; contradiction].
  destruct (bestMove (searchRootMoves E random g)) as [bm |].
  - destruct Hco as (Hbm & Hscore).
    destruct (Hbest bm _ Hbm Hscore) as [-> | Hgt]; [reflexivity |].
    unfold Number_le in Hle. congruence.
  - rewrite Hco in Hle. apply Number_le_NegInfinity in Hle. contradiction.
Qed.

End MoreSelectionFacts.

Section SelectionOutcomes.

Context {Square Hidden : Type} (E : @RulesEngine Square Hidden).

Implicit Types (g : @Game Square Hidden) (random : nat -> Q)
         (sel : @Selection Square) (ai : Color).

(** A selection made is never undone. *)
Lemma rootLoop_keeps_selection random g ai (moves : list Move) sel :
  bestMove sel <> None ->
  bestMove (rootLoop E random g ai moves sel) <> None.
Proof.
  revert sel. induction moves as [| move rest IH]; intros sel Hsel;
    cbn [rootLoop]; [exact Hsel |].
  destruct (simulateRoot E g ai move) as [sim |]; [| now apply IH].
  destruct (Number_gtb _ _); [apply IH; discriminate |].
  destruct (Number_eqb _ _); [| now apply IH].
  destruct (replaceOnTie _); apply IH; [discriminate | exact Hsel].
Qed.

Lemma rootLoop_always_replace random g ai (moves : list Move) (n : nat) :
  TieBreakStubbed true random ->
  bestMove (rootLoop E random g ai moves (mkSelection None NegInfinity n)) = None
  <-> forall mv, In mv moves -> rootScore E g ai mv = None.
Proof.
  intros Hstub. revert n.
  induction moves as [| move rest IH]; intros n; cbn [rootLoop].
  - split; [intros _ mv [] | reflexivity].
  - destruct (simulateRoot E g ai move) as [sim |] eqn:Hsim.
    + pose proof (rootScore_simulated E g ai move sim Hsim) as Hscore.
      split.
      * intros Hnone. exfalso. revert Hnone. cbn [bestScore bestMove drawn].
        destruct (Number_gtb _ NegInfinity) eqn:Hgt;
          [apply rootLoop_keeps_selection; discriminate |].
        apply Number_gtb_NegInfinity in Hgt. rewrite Hgt. cbn [Number_eqb].
        rewrite Hstub. apply rootLoop_keeps_selection; discriminate.
      * intros Hall. specialize (Hall move (or_introl eq_refl)). congruence.
    + rewrite IH. split.
      * intros Hall mv [<- | Hin]; [now apply rootScore_faulted | auto].
      * intros Hall mv Hin. apply Hall. now right.
Qed.

Lemma rootLoop_never_replace random g ai (moves : list Move) (n : nat) :
  TieBreakStubbed false random ->
  bestMove (rootLoop E random g ai moves (mkSelection None NegInfinity n)) = None
  <-> forall mv v, In mv moves -> rootScore E g ai mv = Some v -> v = NegInfinity.
Proof.
  intros Hstub. revert n.
  induction moves as [| move rest IH]; intros n; cbn [rootLoop].
  - split; [intros _ mv v [] | reflexivity].
  - destruct (simulateRoot E g ai move) as [sim |] eqn:Hsim.
    + pose proof (rootScore_simulated E g ai move sim Hsim) as Hscore.
      cbn [bestScore bestMove drawn].
      destruct (Number_gtb _ NegInfinity) eqn:Hgt.
      * split.
        -- intros Hnone. exfalso. revert Hnone.
           apply rootLoop_keeps_selection; discriminate.
        -- intros Hall. rewrite (Hall move _ (or_introl eq_refl) Hscore) in Hgt.
           discriminate.
      * apply Number_gtb_NegInfinity in Hgt. rewrite Hgt in *. cbn [Number_eqb].
        rewrite Hstub, IH. split.
        -- intros Hall mv v [<- | Hin] Hv; [congruence | eauto].
        -- intros Hall mv v Hin. apply Hall. now right.
    + rewrite IH. split.
      * intros Hall mv v [<- | Hin] Hv;
          [rewrite (rootScore_faulted E g ai move Hsim) in Hv; discriminate | eauto].
      * intros Hall mv v Hin. apply Hall. now right.
Qed.

(** X13.  When the search loop selects no move.  With a tie-break that
    always replaces: exactly when the simulation of every root move
    faults.  With a tie-break that never replaces: exactly when every
    root move that is simulated scores [-Infinity]. *)
Theorem searchRootMoves_selects_nothing random g :
  (TieBreakStubbed true random ->
   (bestMove (searchRootMoves E random g) = None <->
    forall mv, In mv (enumerateMoves E g (currentPlayer g)) ->
               rootScore E g (currentPlayer g) mv = None)) /\
  (TieBreakStubbed false random ->
   (bestMove (searchRootMoves E random g) = None <->
    forall mv v, In mv (enumerateMoves E g (currentPlayer g)) ->
                 rootScore E g (currentPlayer g) mv = Some v ->
                 v = NegInfinity)).
Proof.
  unfold searchRootMoves. split; intros Hstub.
  - now apply rootLoop_always_replace.
  - now apply rootLoop_never_replace.
Qed.

Lemma determineBestMove_In random g (bm : Move) (n : nat) :
  determineBestMove E random g = (Some bm, n) ->
  In bm (enumerateMoves E g (currentPlayer g)).
Proof.
  unfold determineBestMove.
  destruct (searchRootMoves_invariant E random g) as (Hco & _).
  destruct (bestMove (searchRootMoves E random g)) as [m |].
  - intros [= <- _]. apply Hco.
  - intros [= Hget _]. eapply arrayGet_In, Hget.
Qed.

(** X14.  With draws in [0, 1), [chooseMove] returns [null] exactly when
    the side to move has no move: with a move available it always
    returns a move, and it never throws. *)
Theorem chooseMove_null_iff_no_moves random g :
  (forall n, (0 <= random n)%Q /\ (random n < 1)%Q) ->
  (enumerateMoves E g (currentPlayer g) = [] ->
   chooseMove E g random = Returned None) /\
  (enumerateMoves E g (currentPlayer g) <> [] ->
   exists m, chooseMove E g random = Returned (Some m)).
Proof.
  intros Hrange. split.
  - intros Hnil. unfold chooseMove. now rewrite Hnil.
  - intros Hne. unfold chooseMove.
    destruct (enumerateMoves E g (currentPlayer g)) as [| m0 ms] eqn:Hmoves;
      [contradiction |].
    destruct (determineBestMove E random g) as [best n].
    destruct (arrayGet_randomIndex (m0 :: ms) (random n))
      as [fallback Hget]; [discriminate | apply Hrange | apply Hrange |].
    rewrite Hget.
    destruct best as [bm |]; [| eauto].
    destruct (findPieceByPosition E g (from bm)); eauto.
Qed.

(** X15.  A move returned by [chooseMove] goes from the origin to the
    destination of one of the enumerated root moves; its piece is the
    piece of that root move or the piece found at the origin in the
    original state. *)
Theorem chooseMove_returns_root_move random g (m : Move) :
  chooseMove E g random = Returned (Some m) ->
  exists mv,
    In mv (enumerateMoves E g (currentPlayer g)) /\
    from m = from mv /\ to m = to mv /\
    (piece m = piece mv \/
     findPieceByPosition E g (from mv) = Some (piece m)).
Proof.
  unfold chooseMove.
  destruct (enumerateMoves E g (currentPlayer g)) as [| m0 ms] eqn:Hmoves;
    [discriminate |].
  destruct (determineBestMove E random g) as [best n] eqn:Hbest.
  assert (Hfallback :
            match arrayGet (m0 :: ms)
                           (randomIndex (random n) (length (m0 :: ms))) with
            | Some randomFallbackMove => Returned (Some randomFallbackMove)
            | None => Thrown
            end = Returned (Some m) ->
            exists mv, In mv (m0 :: ms) /\ from m = from mv /\ to m = to mv /\
                       (piece m = piece mv \/
                        findPieceByPosition E g (from mv) = Some (piece m))).
  { destruct (arrayGet _ _) as [rf |] eqn:Hget; [| discriminate].
    intros [= <-]. exists rf.
    split; [eapply arrayGet_In, Hget | auto]. }
  destruct best as [bm |]; [| exact Hfallback].
  destruct (findPieceByPosition E g (from bm)) as [p |] eqn:Hfind;
    [| exact Hfallback].
  intros [= <-]. exists bm.
  split; [| simpl; auto].
  rewrite <- Hmoves. eapply determineBestMove_In, Hbest.
Qed.

Lemma rootLoop_draws random1 random2 g ai (moves : list Move) sel :
  (forall i, (i < drawn sel + length moves)%nat -> random1 i = random2 i) ->
  rootLoop E random1 g ai moves sel = rootLoop E random2 g ai moves sel /\
  (drawn (rootLoop E random1 g ai moves sel) <= drawn sel + length moves)%nat.
Proof.
  revert sel. induction moves as [| move rest IH]; intros sel Hext;
    cbn [rootLoop].
  - split; [reflexivity | simpl; lia].
  - cbn [length] in Hext |- *.
    assert (Hnext : forall sel',
               (drawn sel' <= S (drawn sel))%nat ->
               rootLoop E random1 g ai rest sel' = rootLoop E random2 g ai rest sel' /\
               (drawn (rootLoop E random1 g ai rest sel')
                <= drawn sel + S (length rest))%nat).
    { intros sel' Hd. destruct (IH sel') as (Heq & Hle).
      - intros i Hi. apply Hext. lia.
      - split; [exact Heq | lia]. }
    destruct (simulateRoot E g ai move) as [sim |]; [| apply Hnext; lia].
    destruct (Number_gtb _ _); [apply Hnext; simpl; lia |].
    destruct (Number_eqb _ _); [| apply Hnext; lia].
    rewrite <- (Hext (drawn sel)) by lia.
    destruct (replaceOnTie _); apply Hnext; simpl; lia.
Qed.

(** X16.  One run of [chooseMove] calls [Math.random] at most once per
    root move in the loop and twice after it: two runs whose first
    [length + 2] draws agree return the same result. *)
Theorem chooseMove_draws_bounded random1 random2 g :
  (forall i, (i < length (enumerateMoves E g (currentPlayer g)) + 2)%nat ->
             random1 i = random2 i) ->
  (drawn (searchRootMoves E random1 g)
   <= length (enumerateMoves E g (currentPlayer g)))%nat /\
  chooseMove E g random1 = chooseMove E g random2.
Proof.
  intros Hext.
  destruct (rootLoop_draws random1 random2 g (currentPlayer g)
              (enumerateMoves E g (currentPlayer g))
              (mkSelection None NegInfinity 0)) as (Heq & Hle).
  { intros i Hi. apply Hext. simpl in Hi. lia. }
  simpl in Hle. split; [exact Hle |].
  unfold chooseMove, determineBestMove, searchRootMoves in *.
  rewrite <- Heq.
  set (sel := rootLoop E random1 g _ _ _) in *.
  destruct (enumerateMoves E g (currentPlayer g)) as [| m0 ms]; [reflexivity |].
  destruct (bestMove sel) as [bm |]; cbv beta iota.
  - rewrite <- (Hext (drawn sel)) by lia. reflexivity.
  - rewrite <- (Hext (drawn sel)), <- (Hext (S (drawn sel))) by lia.
    reflexivity.
Qed.

Lemma Number_le_Infinity (a : Number) : Number_le Infinity a -> a = Infinity.
Proof. unfold Number_le. destruct a; simpl; congruence. Qed.

(** X17.  An immediate win is not missed: when some root move leads to a
    finished game won by the side to move, the loop selects a move, and
    the move it selects scores [Infinity]. *)
Theorem searchRootMoves_takes_a_win random g (mv : Move) (sim : Game) :
  In mv (enumerateMoves E g (currentPlayer g)) ->
  simulateRoot E g (currentPlayer g) mv = Some sim ->
  isFinished E sim = true ->
  winner sim = Some (currentPlayer g) ->
  exists bm,
    bestMove (searchRootMoves E random g) = Some bm /\
    In bm (enumerateMoves E g (currentPlayer g)) /\
    rootScore E g (currentPlayer g) bm = Some Infinity.
Proof.
  intros Hin Hsim Hfin Hwin.
  assert (Hscore : rootScore E g (currentPlayer g) mv = Some Infinity).
  { rewrite (rootScore_simulated E g _ mv sim Hsim).
    rewrite minimax_terminal by (rewrite Hfin; apply orb_true_r).
    now rewrite Hwin, Color_eqb_refl. }
  destruct (searchRootMoves_invariant E random g) as (Hco & Hbound).
  pose proof (Number_le_Infinity _ (Hbound mv Infinity Hin Hscore)) as Hbest.
  destruct (bestMove (searchRootMoves E random g)) as [bm |].
  - exists bm. destruct Hco as (Hbm & Hs). rewrite Hbest in Hs. auto.
  - congruence.
Qed.

End SelectionOutcomes.

(** ** The further properties on concrete positions *)

Section MoreExamples.

Import LineChess.

Lemma evaluateBoard_order_independent_witness :
  evaluateBoard
    (position_of [mkPiece "rook" white 0; mkPiece "king" black 3] white false)
    white
  = evaluateBoard
      (position_of [mkPiece "king" black 3; mkPiece "rook" white 0] white false)
      white.
Proof.
  refine (evaluateBoard_order_independent _ _ white _).
  apply perm_swap.
Defined.

Lemma evaluateBoard_piece_removed_witness :
  evaluateBoard
    (position_of [mkPiece "rook" white 0; mkPiece "king" black 3] black false)
    white
  = evaluateBoard rookChoice white + getPieceValue "queen".
Proof.
  refine (evaluateBoard_piece_removed
            rookChoice _ (mkPiece "queen" black 2)
            [mkPiece "rook" white 0] [mkPiece "king" black 3] white _ _).
  - reflexivity.
  - reflexivity.
Defined.

Lemma minimax_depth_1_static_witness :
  minimax engine cornered 1 true white
  = extremum true
      (List.map (fun child => leafScore child white)
                (children engine cornered white
                          (enumerateMoves engine cornered white))).
Proof.
  refine (minimax_depth_1_static engine cornered true white _ _).
  - reflexivity.
  - vm_compute. discriminate.
Defined.

Lemma minimax_negative_depth_witness :
  minimax_fuel engine 2 kingAdjacent (-1) true white
  = minimax_fuel engine 2 kingAdjacent (-5) true white /\
  minimax_fuel engine 2 kingAdjacent (-5) true white = Some Infinity.
Proof.
  split.
  - refine (proj1 (minimax_negative_depth
                     engine 2 kingAdjacent (-1) (-5) true white _ _)).
    + reflexivity.
    + reflexivity.
  - reflexivity.
Defined.

Lemma searchLoop_order_independent_witness :
  searchLoop engine (fun child => Some (leafScore child white)) Math_max
             cornered white [kingTo 0; kingTo 2] NegInfinity
  = searchLoop engine (fun child => Some (leafScore child white)) Math_max
               cornered white [kingTo 2; kingTo 0] NegInfinity.
Proof.
  refine (proj1 (searchLoop_order_independent
                   engine (fun child => Some (leafScore child white))
                   cornered white [kingTo 0; kingTo 2] [kingTo 2; kingTo 0] _)
                NegInfinity).
  apply perm_swap.
Defined.

Lemma minimax_zero_sum_witness :
  minimax engine rookChoice 2 true white
  = Number_opp (minimax engine rookChoice 2 false black).
Proof.
  refine (minimax_zero_sum engine rookChoice 2 true white _).
  lia.
Defined.

Lemma simulateRoot_refines_simulate_witness :
  exists child, simulate engine cornered white (kingTo 0) = Some child.
Proof.
  eexists.
  refine (simulateRoot_refines_simulate engine cornered white (kingTo 0) _ _).
  reflexivity.
Defined.

Lemma minimax_leaves_store_unchanged_witness :
  exists ext,
    minimax_h engine 3 0%nat 2 true white [cornered]
    = Some (minimax engine cornered 2 true white, [cornered] ++ ext) /\
    (forall r' g', [cornered] !! r' = Some g' ->
                   ([cornered] ++ ext) !! r' = Some g').
Proof.
  refine (minimax_leaves_store_unchanged
            engine [cornered] 0%nat cornered 2 true white _ _).
  - reflexivity.
  - lia.
Defined.

Lemma searchRootMoves_optimal_witness :
  In (rookTo 1) (enumerateMoves engine rookChoice white) /\
  rootScore engine rookChoice white (rookTo 1)
  = Some (bestScore (searchRootMoves engine (always (3 # 4)) rookChoice)).
Proof.
  refine (proj1 (searchRootMoves_optimal engine (always (3 # 4)) rookChoice)
                (rookTo 1) _).
  reflexivity.
Defined.

Lemma chooseMove_strictly_best_move_witness :
  chooseMove engine rookChoice (always (3 # 4)) = Returned (Some (rookTo 1)).
Proof.
  refine (chooseMove_strictly_best_move
            engine (always (3 # 4)) rookChoice (rookTo 1) (Finite 0)
            (mkPiece "rook" white 0) _ _ _ _ _).
  - vm_compute. left. reflexivity.
  - reflexivity.
  - discriminate.
  - intros mv' v' Hin Hscore.
    change (enumerateMoves engine rookChoice (currentPlayer rookChoice))
      with [rookTo 1; rookTo 2] in Hin.
    destruct Hin as [<- | [<- | []]]; [left; reflexivity | right].
    vm_compute in Hscore. injection Hscore as <-. reflexivity.
  - reflexivity.
Defined.

Lemma searchRootMoves_selects_nothing_witness :
  bestMove (searchRootMoves engine (always (3 # 4)) cornered) = None <->
  (forall mv v, In mv (enumerateMoves engine cornered white) ->
                rootScore engine cornered white mv = Some v ->
                v = NegInfinity).
Proof.
  refine (proj2 (searchRootMoves_selects_nothing
                   engine (always (3 # 4)) cornered) _).
  intros i. reflexivity.
Defined.

Lemma chooseMove_null_iff_no_moves_witness :
  (enumerateMoves engine stalemate black = [] ->
   chooseMove engine stalemate (always (3 # 4)) = Returned None) /\
  (enumerateMoves engine stalemate black <> [] ->
   exists m, chooseMove engine stalemate (always (3 # 4)) = Returned (Some m)).
Proof.
  refine (chooseMove_null_iff_no_moves engine (always (3 # 4)) stalemate _).
  intros n. split; [vm_compute; discriminate | reflexivity].
Defined.

Lemma chooseMove_returns_root_move_witness :
  exists mv,
    In mv (enumerateMoves engine cornered white) /\
    from (kingTo 2) = from mv /\ to (kingTo 2) = to mv /\
    (piece (kingTo 2) = piece mv \/
     findPieceByPosition engine cornered (from mv) = Some (piece (kingTo 2))).
Proof.
  refine (chooseMove_returns_root_move
            engine (always (3 # 4)) cornered (kingTo 2) _).
  reflexivity.
Defined.

Lemma chooseMove_draws_bounded_witness :
  (drawn (searchRootMoves engine (always (3 # 4)) cornered)
   <= length (enumerateMoves engine cornered white))%nat /\
  chooseMove engine cornered (always (3 # 4))
  = chooseMove engine cornered
               (fun i => if (i <? 4)%nat then 3 # 4 else 1 # 8).
Proof.
  refine (chooseMove_draws_bounded
            engine (always (3 # 4))
            (fun i => if (i <? 4)%nat then 3 # 4 else 1 # 8) cornered _).
  intros i Hi.
  change (length (enumerateMoves engine cornered (currentPlayer cornered)))
    with 2%nat in Hi.
  destruct i as [| [| [| [| i]]]]; try reflexivity. lia.
Defined.

Lemma searchRootMoves_takes_a_win_witness :
  exists bm,
    bestMove (searchRootMoves engine (always (3 # 4)) kingHangs) = Some bm /\
    In bm (enumerateMoves engine kingHangs white) /\
    rootScore engine kingHangs white bm = Some Infinity.
Proof.
  refine (searchRootMoves_takes_a_win
            engine (always (3 # 4)) kingHangs
            (mkMove (mkPiece "rook" white 0) 0 2) _ _ _ _ _).
  - vm_compute. right. left. reflexivity.
  - reflexivity.
  - reflexivity.
  - reflexivity.
Defined.

End MoreExamples.
